(** * grid-generator: a grid of geographic points over a bounding box

    Shallow embedding of [grid-generator/grid-generator.py].

    Python floats are embedded as real numbers, so every statement below is
    exact over the reals.  A coordinate pair [[lon, lat]] is a pair of reals.
    The recursive walkers are given a fuel argument that bounds the depth of
    the recursion; running out of fuel is [None].  An index that is out of
    range (Python's IndexError) is [None] as well. *)

From Stdlib Require Import String.
From Stdlib Require Import Reals Lra Lia Arith List.
Import ListNotations.

Open Scope R_scope.

(** ** The [math] functions the module imports *)

Module PyMath.

(** [math.radians] and [math.degrees]. *)
Definition radians (x : R) : R := x * (PI / 180).
Definition degrees (x : R) : R := x * (180 / PI).

(** [math.atan2 y x] over the reals: the angle of the point [(x, y)] in
    (-PI, PI], and 0 at the origin. *)
Definition atan2 (y x : R) : R :=
  if Rlt_dec 0 x then atan (y / x)
  else if Rlt_dec x 0 then
         if Rle_dec 0 y then atan (y / x) + PI else atan (y / x) - PI
  else if Rlt_dec 0 y then PI / 2
  else if Rlt_dec y 0 then - (PI / 2)
  else 0.

End PyMath.
Import PyMath.

(** ** Module constants *)

Definition RADIUS_OF_EARTH : R := 6371.
Definition NORTH : R := radians 0.
Definition EAST : R := radians 90.
Definition SOUTH : R := radians 180.
Definition WEST : R := radians 270.

(** ** Geodesic stepper *)

Definition angular_distance (distance : R) : R := distance / RADIUS_OF_EARTH.

Definition get_next_lat (lat distance bearing : R) : R :=
  let ad := angular_distance distance in
  asin ((sin lat * cos ad) + (cos lat * sin ad * cos bearing)).

Definition get_next_lon (lat1 lat2 lon distance bearing : R) : R :=
  let ad := angular_distance distance in
  let left := sin bearing * sin ad * cos lat1 in
  let right := cos ad - sin lat1 * sin lat2 in
  lon + atan2 left right.

(** The result is the pair (longitude, latitude), in degrees. *)
Definition get_next_lat_lon (lat lon distance bearing : R) : R * R :=
  let lat_rads := radians lat in
  let lon_rads := radians lon in
  let lat2 := get_next_lat lat_rads distance bearing in
  let lon2 := get_next_lon lat_rads lat2 lon_rads distance bearing in
  (degrees lon2, degrees lat2).

(** ** Line walkers *)

(** A point is the list [[lon, lat]] of the source. *)
Definition point : Type := (R * R)%type.
Definition p_lon (p : point) : R := fst p.
Definition p_lat (p : point) : R := snd p.

Fixpoint get_points_south (fuel : nat) (lat_start lon_start lat_end step_size : R)
    (points : list point) : option (list point) :=
  match fuel with
  | O => None
  | S fuel' =>
      let points := points ++ [(lon_start, lat_start)] in
      if Rlt_dec lat_start lat_end then Some points
      else
        let '(lon, lat) := get_next_lat_lon lat_start lon_start step_size SOUTH in
        get_points_south fuel' lat lon lat_end step_size points
  end.

Fixpoint get_points_east (fuel : nat) (lat_start lon_start lon_end step_size : R)
    (points : list point) : option (list point) :=
  match fuel with
  | O => None
  | S fuel' =>
      let points := points ++ [(lon_start, lat_start)] in
      if Rgt_dec lon_start lon_end then Some points
      else
        let '(lon, lat) := get_next_lat_lon lat_start lon_start step_size EAST in
        get_points_east fuel' lat lon lon_end step_size points
  end.

(** The two walkers have one shape: append the current point, return if the
    stop test holds, otherwise move to the next point and recurse.  [walk] is
    that shape, used to state what both share; [get_points_south_walk] and
    [get_points_east_walk] below relate it to the two functions. *)
Section WalkDef.
Variable stop : point -> bool.
Variable next : point -> point.

Fixpoint walk (fuel : nat) (p : point) (points : list point)
  : option (list point) :=
  match fuel with
  | O => None
  | S fuel' =>
      let points := points ++ [p] in
      if stop p then Some points else walk fuel' (next p) points
  end.
End WalkDef.

Definition south_stop (lat_end : R) (p : point) : bool :=
  if Rlt_dec (p_lat p) lat_end then true else false.
Definition south_next (step_size : R) (p : point) : point :=
  get_next_lat_lon (p_lat p) (p_lon p) step_size SOUTH.

Definition east_stop (lon_end : R) (p : point) : bool :=
  if Rgt_dec (p_lon p) lon_end then true else false.
Definition east_next (step_size : R) (p : point) : point :=
  get_next_lat_lon (p_lat p) (p_lon p) step_size EAST.

(** ** Grid builders *)

(** The body of [for lon, lat in anchors: points.append(walk(lat, lon, ...))]:
    [walk] is the inner walker applied to its end coordinate, step size and
    the empty list. *)
Fixpoint walk_each (walk : R -> R -> option (list point)) (anchors : list point)
    (points : list (list point)) : option (list (list point)) :=
  match anchors with
  | [] => Some points
  | (lon, lat) :: rest =>
      match walk lat lon with
      | None => None
      | Some row => walk_each walk rest (points ++ [row])
      end
  end.

Definition get_points_south_then_east (fuel : nat)
    (lat_start lon_start lat_end lon_end step_size : R) : option (list (list point)) :=
  match get_points_south fuel lat_start lon_start lat_end step_size [] with
  | None => None
  | Some points_south =>
      walk_each (fun lat lon => get_points_east fuel lat lon lon_end step_size [])
                points_south []
  end.

Definition get_points_east_then_south (fuel : nat)
    (lat_start lon_start lat_end lon_end step_size : R) : option (list (list point)) :=
  match get_points_east fuel lat_start lon_start lon_end step_size [] with
  | None => None
  | Some points_east =>
      walk_each (fun lat lon => get_points_south fuel lat lon lat_end step_size [])
                points_east []
  end.

(** [row] starts with the point [a]. *)
Definition row_starts_at (a : point) (row : list point) : Prop :=
  exists rest, row = a :: rest.

(** ** Polygon assembler *)

Section Polygons.
Context {A : Type}.

(** [points[row][col]], for indices that are never negative. *)
Definition at_rc (points : list (list A)) (row col : nat) : option A :=
  match nth_error points row with
  | None => None
  | Some r => nth_error r col
  end.

Definition get_square_at_rc (row col : nat) (points : list (list A))
  : option (list A) :=
  match at_rc points row col, at_rc points (row + 1) col,
        at_rc points (row + 1) (col + 1), at_rc points row (col + 1) with
  | Some a, Some b, Some c, Some d => Some [a; b; c; d]
  | _, _, _, _ => None
  end.

(** [for c in range(len(points[r]) - 1): polys.append(...)], the columns
    still to visit being [cs]. *)
Fixpoint squares_of_row (r : nat) (cs : list nat) (points : list (list A))
    (polys : list (list A)) : option (list (list A)) :=
  match cs with
  | [] => Some polys
  | c :: cs' =>
      match get_square_at_rc r c points with
      | None => None
      | Some sq => squares_of_row r cs' points (polys ++ [sq])
      end
  end.

(** [for r in range(len(points) - 1): ...], the rows still to visit being
    [rs].  A [range] of a negative number is empty, as is [seq 0 (n - 1)]
    for [n = 0]. *)
Fixpoint squares_of_rows (rs : list nat) (points : list (list A))
    (polys : list (list A)) : option (list (list A)) :=
  match rs with
  | [] => Some polys
  | r :: rs' =>
      match nth_error points r with
      | None => None
      | Some row =>
          match squares_of_row r (seq 0 (length row - 1)) points polys with
          | None => None
          | Some polys' => squares_of_rows rs' points polys'
          end
      end
  end.

Definition get_polygons (points : list (list A)) : option (list (list A)) :=
  squares_of_rows (seq 0 (length points - 1)) points [].

(** The two nested loops of [get_geo_json_points]. *)
Fixpoint append_row (r : list A) (coords : list A) : list A :=
  match r with
  | [] => coords
  | c :: r' => append_row r' (coords ++ [c])
  end.

Fixpoint append_rows (points : list (list A)) (coords : list A) : list A :=
  match points with
  | [] => coords
  | r :: points' => append_rows points' (append_row r coords)
  end.

Definition flatten_points (points : list (list A)) : list A :=
  append_rows points [].

(** There are [nrows] rows and every row of [points] has [ncols] entries. *)
Definition rectangular (points : list (list A)) (nrows ncols : nat) : Prop :=
  length points = nrows /\ Forall (fun row => length row = ncols) points.

(** [sq] is the square at row [r] and column [c]: the entries at
    [(r, c)], [(r+1, c)], [(r+1, c+1)] and [(r, c+1)], in this order. *)
Definition is_square_at (m : list (list A)) (rc : nat * nat) (sq : list A) : Prop :=
  let (r, c) := rc in
  exists a b c' d,
    at_rc m r c = Some a /\ at_rc m (r + 1) c = Some b /\
    at_rc m (r + 1) (c + 1) = Some c' /\ at_rc m r (c + 1) = Some d /\
    sq = [a; b; c'; d].
End Polygons.

(** ** GeoJSON encoder *)

(** The value handed to [json.dumps]. *)
#[local] Set Warnings "-register-all".
Inductive json : Type :=
| JNum (x : R)
| JStr (s : string)
| JArr (items : list json)
| JObj (fields : list (string * json)).

Definition json_point (p : point) : json := JArr [JNum (fst p); JNum (snd p)].
Definition json_points (ps : list point) : json := JArr (map json_point ps).

Definition get_geo_json_points (points : list (list point)) : json :=
  let coords := flatten_points points in
  JObj [("type"%string, JStr "MultiPoint"); ("coordinates"%string, json_points coords)].

Definition get_geo_json_polys (points : list (list point)) : option json :=
  match get_polygons points with
  | None => None
  | Some polys =>
      Some (JObj [("type"%string, JStr "MultiPolygon");
                  ("coordinates"%string, JArr [JArr (map json_points polys)])])
  end.

(** ** The command *)

(** The parsed command line: four floats, the integer [square_length], the
    output path and the [--multi-point] flag. *)
Record args : Type := {
  nw_lat : R;
  nw_lon : R;
  se_lat : R;
  se_lon : R;
  square_length : Z;
  out_file : string;
  multi_point : bool
}.

(** [write_geo_json file_name data] writes [data] to [file_name]; the write
    is modelled by the pair of the path and the document written. *)
Definition write_geo_json (file_name : string) (data : json) : string * json :=
  (file_name, data).

(** The body run under [__main__], after the arguments are parsed. *)
Definition main (fuel : nat) (a : args) : option (string * json) :=
  match get_points_south_then_east fuel (nw_lat a) (nw_lon a) (se_lat a)
          (se_lon a) (IZR (square_length a)) with
  | None => None
  | Some points =>
      let json_result :=
        if multi_point a then Some (get_geo_json_points points)
        else get_geo_json_polys points in
      match json_result with
      | None => None
      | Some doc => Some (write_geo_json (out_file a) doc)
      end
  end.

(** * Properties *)

(** ** Degrees, radians and [atan2] *)

Lemma degrees_radians (x : R) : degrees (radians x) = x.
Proof.
  unfold degrees, radians. pose proof PI_RGT_0. field. lra.
Qed.

Lemma radians_degrees (x : R) : radians (degrees x) = x.
Proof.
  unfold degrees, radians. pose proof PI_RGT_0. field. lra.
Qed.

Lemma radians_plus (x y : R) : radians (x + y) = radians x + radians y.
Proof. unfold radians. ring. Qed.

Lemma degrees_plus (x y : R) : degrees (x + y) = degrees x + degrees y.
Proof. unfold degrees. ring. Qed.

Lemma degrees_minus (x y : R) : degrees (x - y) = degrees x - degrees y.
Proof. unfold degrees. ring. Qed.

Lemma degrees_lt (x y : R) : x < y -> degrees x < degrees y.
Proof.
  intros H. unfold degrees.
  apply Rmult_lt_compat_r; [|exact H].
  apply Rdiv_lt_0_compat; [lra | exact PI_RGT_0].
Qed.

Lemma degrees_le (x y : R) : x <= y -> degrees x <= degrees y.
Proof.
  intros [H | ->]; [left; now apply degrees_lt | right; reflexivity].
Qed.

Lemma radians_lt (x y : R) : x < y -> radians x < radians y.
Proof.
  intros H. unfold radians.
  apply Rmult_lt_compat_r; [|exact H].
  apply Rdiv_lt_0_compat; [exact PI_RGT_0 | lra].
Qed.

Lemma radians_le (x y : R) : x <= y -> radians x <= radians y.
Proof.
  intros [H | ->]; [left; now apply radians_lt | right; reflexivity].
Qed.

Lemma radians_90 : radians 90 = PI / 2.
Proof. unfold radians. field. Qed.

Lemma radians_m90 : radians (-90) = - (PI / 2).
Proof. unfold radians. field. Qed.

Lemma NORTH_eq : NORTH = 0.
Proof. unfold NORTH, radians. ring. Qed.

Lemma EAST_eq : EAST = PI / 2.
Proof. exact radians_90. Qed.

Lemma SOUTH_eq : SOUTH = PI.
Proof. unfold SOUTH, radians. field. Qed.

Lemma atan2_right_pos (y x : R) : 0 < x -> atan2 y x = atan (y / x).
Proof.
  intros Hx. unfold atan2. destruct (Rlt_dec 0 x); [reflexivity | contradiction].
Qed.

Lemma atan2_0_nonneg (x : R) : 0 <= x -> atan2 0 x = 0.
Proof.
  intros Hx. unfold atan2.
  destruct (Rlt_dec 0 x).
  - unfold Rdiv. rewrite Rmult_0_l. exact atan_0.
  - destruct (Rlt_dec x 0); [lra|].
    destruct (Rlt_dec 0 0); [lra|]. reflexivity.
Qed.

Lemma atan2_0_neg (x : R) : x < 0 -> atan2 0 x = PI.
Proof.
  intros Hx. unfold atan2.
  destruct (Rlt_dec 0 x); [lra|].
  destruct (Rlt_dec x 0); [|lra].
  destruct (Rle_dec 0 0); [|lra].
  unfold Rdiv. rewrite Rmult_0_l, atan_0. ring.
Qed.

Lemma angular_distance_0 : angular_distance 0 = 0.
Proof. unfold angular_distance, RADIUS_OF_EARTH. field. Qed.

(** ** Geodesic stepper *)

(** C1: the stepper returns the point whose latitude and longitude are given
    by the great-circle formulas, evaluated on the radians of the input and
    converted back to degrees. *)
Theorem get_next_lat_lon_formula (lat lon d b : R) :
  let ad := d / 6371 in
  let lat' := asin (sin (radians lat) * cos ad
                    + cos (radians lat) * sin ad * cos b) in
  let lon' := radians lon
              + atan2 (sin b * sin ad * cos (radians lat))
                      (cos ad - sin (radians lat) * sin lat') in
  p_lat (get_next_lat_lon lat lon d b) = degrees lat' /\
  p_lon (get_next_lat_lon lat lon d b) = degrees lon'.
Proof.
  split; reflexivity.
Qed.

Lemma get_next_lat_0 (lat b : R) :
  - (PI / 2) <= lat <= PI / 2 -> get_next_lat lat 0 b = lat.
Proof.
  intros Hlat. unfold get_next_lat.
  rewrite angular_distance_0, sin_0, cos_0.
  replace (sin lat * 1 + cos lat * 0 * cos b) with (sin lat) by ring.
  now apply asin_sin.
Qed.

Lemma get_next_lon_0 (lat lon b : R) : get_next_lon lat lat lon 0 b = lon.
Proof.
  unfold get_next_lon.
  rewrite angular_distance_0, sin_0, cos_0.
  replace (sin b * 0 * cos lat) with 0 by ring.
  rewrite atan2_0_nonneg; [ring|].
  pose proof (sin2_cos2 lat) as H. unfold Rsqr in H.
  pose proof (Rle_0_sqr (cos lat)) as Hc. unfold Rsqr in Hc. lra.
Qed.

Lemma radians_lat_range (lat : R) :
  -90 <= lat <= 90 -> - (PI / 2) <= radians lat <= PI / 2.
Proof.
  intros [Hl Hu].
  pose proof (radians_le _ _ Hl) as Hl'. pose proof (radians_le _ _ Hu) as Hu'.
  rewrite radians_m90 in Hl'. rewrite radians_90 in Hu'. now split.
Qed.

(** C8: a step of distance 0 returns the input point, whatever the
    bearing, when the latitude is within [-90, 90] degrees. *)
Theorem get_next_lat_lon_zero_distance (lat lon b : R) :
  -90 <= lat <= 90 ->
  get_next_lat_lon lat lon 0 b = (lon, lat).
Proof.
  intros Hlat. unfold get_next_lat_lon.
  rewrite get_next_lat_0 by now apply radians_lat_range.
  rewrite get_next_lon_0.
  now rewrite !degrees_radians.
Qed.

Lemma get_next_lat_lon_zero_distance_witness :
  get_next_lat_lon 45 10 0 EAST = (10, 45).
Proof.
  apply get_next_lat_lon_zero_distance. lra.
Defined.

Lemma get_next_lat_south (lat d : R) :
  - (PI / 2) <= lat - angular_distance d <= PI / 2 ->
  get_next_lat lat d SOUTH = lat - angular_distance d.
Proof.
  intros Hr. unfold get_next_lat. rewrite SOUTH_eq, cos_PI.
  replace (sin lat * cos (angular_distance d)
           + cos lat * sin (angular_distance d) * -1)
    with (sin (lat - angular_distance d)) by (rewrite sin_minus; ring).
  now apply asin_sin.
Qed.

Lemma get_next_lat_north (lat d : R) :
  - (PI / 2) <= lat + angular_distance d <= PI / 2 ->
  get_next_lat lat d NORTH = lat + angular_distance d.
Proof.
  intros Hr. unfold get_next_lat. rewrite NORTH_eq, cos_0.
  replace (sin lat * cos (angular_distance d)
           + cos lat * sin (angular_distance d) * 1)
    with (sin (lat + angular_distance d)) by (rewrite sin_plus; ring).
  now apply asin_sin.
Qed.

Lemma p_lat_get_next_lat_lon (lat lon d b : R) :
  p_lat (get_next_lat_lon lat lon d b) = degrees (get_next_lat (radians lat) d b).
Proof. reflexivity. Qed.

Lemma radians_minus_degrees (lat a : R) :
  radians (lat - degrees a) = radians lat - a.
Proof.
  unfold radians, degrees. pose proof PI_RGT_0. field. lra.
Qed.

(** C9: a step due South by [d] followed by a step due North by [d] comes
    back to the latitude it left, when the latitude and the latitude lowered
    by the angular distance are both within [-90, 90] degrees. *)
Theorem south_then_north_latitude (lat lon d : R) :
  -90 <= lat <= 90 ->
  -90 <= lat - degrees (angular_distance d) <= 90 ->
  let s := get_next_lat_lon lat lon d SOUTH in
  p_lat (get_next_lat_lon (p_lat s) (p_lon s) d NORTH) = lat.
Proof.
  intros Hlat Hmid s. subst s.
  apply radians_lat_range in Hlat, Hmid.
  rewrite radians_minus_degrees in Hmid.
  rewrite !p_lat_get_next_lat_lon.
  rewrite (get_next_lat_south _ _ Hmid), radians_degrees.
  rewrite get_next_lat_north.
  - replace (radians lat - angular_distance d + angular_distance d)
      with (radians lat) by ring.
    apply degrees_radians.
  - replace (radians lat - angular_distance d + angular_distance d)
      with (radians lat) by ring.
    exact Hlat.
Qed.

Lemma degrees_1_bounds : 0 < degrees 1 < 90.
Proof.
  unfold degrees. pose proof PI2_3_2 as H. pose proof PI_RGT_0 as Hp.
  rewrite Rmult_1_l. split.
  - apply Rdiv_lt_0_compat; lra.
  - apply (Rmult_lt_reg_r PI); [exact Hp|].
    unfold Rdiv. rewrite Rmult_assoc, Rinv_l by lra. lra.
Qed.

Lemma one_lt_PI : 1 < PI.
Proof. pose proof PI2_3_2. lra. Qed.

Lemma south_then_north_latitude_witness :
  p_lat (get_next_lat_lon
           (p_lat (get_next_lat_lon 45 10 6371 SOUTH))
           (p_lon (get_next_lat_lon 45 10 6371 SOUTH)) 6371 NORTH) = 45.
Proof.
  apply (south_then_north_latitude 45 10 6371).
  - lra.
  - replace (angular_distance 6371) with 1
      by (unfold angular_distance, RADIUS_OF_EARTH; field).
    pose proof degrees_1_bounds. lra.
Defined.

(** ** Line walkers *)

Lemma get_points_south_walk (fuel : nat) (lat lon lat_end step : R)
    (acc : list point) :
  get_points_south fuel lat lon lat_end step acc
  = walk (south_stop lat_end) (south_next step) fuel (lon, lat) acc.
Proof.
  revert lat lon acc.
  induction fuel as [|fuel IH]; intros lat lon acc; simpl; [reflexivity|].
  unfold south_stop at 1. simpl.
  destruct (Rlt_dec lat lat_end); [reflexivity|].
  unfold south_next at 1. simpl.
  destruct (get_next_lat_lon lat lon step SOUTH) as [lon' lat'].
  apply IH.
Qed.

Lemma get_points_east_walk (fuel : nat) (lat lon lon_end step : R)
    (acc : list point) :
  get_points_east fuel lat lon lon_end step acc
  = walk (east_stop lon_end) (east_next step) fuel (lon, lat) acc.
Proof.
  revert lat lon acc.
  induction fuel as [|fuel IH]; intros lat lon acc; simpl; [reflexivity|].
  unfold east_stop at 1. simpl.
  destruct (Rgt_dec lon lon_end); [reflexivity|].
  unfold east_next at 1. simpl.
  destruct (get_next_lat_lon lat lon step EAST) as [lon' lat'].
  apply IH.
Qed.

Section WalkFacts.
Variable stop : point -> bool.
Variable next : point -> point.

(** The accumulator is only ever appended to. *)
Lemma walk_acc (fuel : nat) (p : point) (acc : list point) :
  walk stop next fuel p acc = option_map (app acc) (walk stop next fuel p []).
Proof.
  revert p acc. induction fuel as [|fuel IH]; intros p acc; simpl.
  - reflexivity.
  - destruct (stop p); [reflexivity|].
    rewrite (IH (next p) (acc ++ [p])), (IH (next p) [p]).
    destruct (walk stop next fuel (next p) []) as [pts|]; simpl.
    + now rewrite <- app_assoc.
    + reflexivity.
Qed.

Lemma walk_step (fuel : nat) (p : point) :
  walk stop next (S fuel) p []
  = if stop p then Some [p] else option_map (cons p) (walk stop next fuel (next p) []).
Proof.
  simpl. destruct (stop p); [reflexivity|]. now rewrite walk_acc.
Qed.

Lemma walk_stop_now (fuel : nat) (p : point) :
  stop p = true -> walk stop next (S fuel) p [] = Some [p].
Proof. intros H. now rewrite walk_step, H. Qed.

Lemma walk_head (fuel : nat) (p : point) (pts : list point) :
  walk stop next fuel p [] = Some pts -> exists rest, pts = p :: rest.
Proof.
  destruct fuel as [|fuel]; [discriminate|].
  rewrite walk_step. destruct (stop p).
  - intros [= <-]. now exists [].
  - destruct (walk stop next fuel (next p) []) as [rest|]; [|discriminate].
    intros [= <-]. now exists rest.
Qed.

Lemma walk_continue (fuel : nat) (p : point) (pts : list point) :
  stop p = false -> walk stop next fuel p [] = Some pts ->
  exists q rest, pts = p :: q :: rest.
Proof.
  intros Hs. destruct fuel as [|fuel]; [discriminate|].
  rewrite walk_step, Hs.
  destruct (walk stop next fuel (next p) []) as [tl|] eqn:E; [|discriminate].
  intros [= <-]. destruct (walk_head _ _ _ E) as [rest ->].
  now exists (next p), rest.
Qed.

(** Every point but the last fails the stop test, the last one passes it. *)
Lemma walk_shape (fuel : nat) (p : point) (pts : list point) :
  walk stop next fuel p [] = Some pts ->
  exists init last,
    pts = init ++ [last] /\ stop last = true /\
    Forall (fun q => stop q = false) init.
Proof.
  revert p pts. induction fuel as [|fuel IH]; intros p pts; [discriminate|].
  rewrite walk_step. destruct (stop p) eqn:Hs.
  - intros [= <-]. exists [], p. repeat split; [exact Hs | constructor].
  - destruct (walk stop next fuel (next p) []) as [tl|] eqn:E; [|discriminate].
    intros [= <-]. destruct (IH _ _ E) as (init & last & -> & Hl & Hi).
    exists (p :: init), last. repeat split; [exact Hl|].
    constructor; assumption.
Qed.

(** More fuel does not change a result. *)
Lemma walk_mono (fuel fuel' : nat) (p : point) (acc pts : list point) :
  walk stop next fuel p acc = Some pts -> (fuel <= fuel')%nat ->
  walk stop next fuel' p acc = Some pts.
Proof.
  revert fuel' p acc. induction fuel as [|fuel IH]; intros fuel' p acc;
    [discriminate|].
  intros H Hle. destruct fuel' as [|fuel']; [lia|].
  simpl in *. destruct (stop p); [exact H|].
  apply IH; [exact H | lia].
Qed.

(** Termination from a measure that every step lowers by at least
    [delta], on points that satisfy an invariant. *)
Section Measure.
Variable inv : point -> Prop.
Variable m : point -> R.
Variable delta : R.
Hypothesis delta_pos : 0 < delta.
Hypothesis stop_neg : forall p, m p < 0 -> stop p = true.
Hypothesis inv_next : forall p, inv p -> stop p = false -> inv (next p).
Hypothesis m_next :
  forall p, inv p -> stop p = false -> m (next p) <= m p - delta.

Lemma walk_within (n : nat) (p : point) :
  inv p -> m p < INR n * delta ->
  exists pts, walk stop next (S n) p [] = Some pts.
Proof.
  revert p. induction n as [|n IH]; intros p Hi Hm.
  - simpl in Hm. rewrite Rmult_0_l in Hm.
    exists [p]. apply walk_stop_now. now apply stop_neg.
  - rewrite walk_step. destruct (stop p) eqn:Hs; [now exists [p]|].
    destruct (IH (next p)) as [pts Hp].
    + now apply inv_next.
    + pose proof (m_next p Hi Hs). rewrite S_INR in Hm. lra.
    + rewrite Hp. now exists (p :: pts).
Qed.

Lemma walk_terminates (p : point) :
  inv p -> exists fuel pts, walk stop next fuel p [] = Some pts.
Proof.
  intros Hi.
  destruct (INR_unbounded (m p / delta)) as [n Hn].
  exists (S n). apply walk_within; [exact Hi|].
  apply (Rmult_lt_compat_r delta) in Hn; [|exact delta_pos].
  unfold Rdiv in Hn. rewrite Rmult_assoc, Rinv_l, Rmult_1_r in Hn by lra.
  exact Hn.
Qed.
End Measure.
End WalkFacts.

(** ** One step due South, one step due East *)

Lemma cos_right_south (lat ad : R) :
  cos ad - sin lat * sin (lat - ad) = cos lat * cos (lat - ad).
Proof.
  replace (cos ad) with (cos (lat - (lat - ad))) by (f_equal; ring).
  rewrite (cos_minus lat (lat - ad)). ring.
Qed.

(** Away from the poles a step due South keeps the longitude and lowers the
    latitude by the angular distance. *)
Lemma get_next_lat_lon_south (lat lon d : R) :
  -90 <= lat <= 90 ->
  -90 <= lat - degrees (angular_distance d) <= 90 ->
  get_next_lat_lon lat lon d SOUTH = (lon, lat - degrees (angular_distance d)).
Proof.
  intros Hlat Hmid. apply radians_lat_range in Hlat, Hmid.
  rewrite radians_minus_degrees in Hmid.
  unfold get_next_lat_lon.
  rewrite (get_next_lat_south _ _ Hmid).
  unfold get_next_lon. rewrite SOUTH_eq, sin_PI, cos_right_south.
  replace (0 * sin (angular_distance d) * cos (radians lat)) with 0 by ring.
  rewrite atan2_0_nonneg.
  - rewrite Rplus_0_r, degrees_radians, degrees_minus, degrees_radians.
    reflexivity.
  - apply Rmult_le_pos; apply cos_ge_0; lra.
Qed.

Lemma sin_cos_prod_bound (a b : R) : -1 <= sin a * cos b <= 1.
Proof.
  pose proof (SIN_bound a). pose proof (COS_bound b). split; nra.
Qed.

Lemma get_next_lat_east (lat d : R) :
  get_next_lat lat d EAST = asin (sin lat * cos (angular_distance d)).
Proof.
  unfold get_next_lat. rewrite EAST_eq, cos_PI2. f_equal. ring.
Qed.

Lemma get_next_lon_east (lat lon d : R) :
  get_next_lon lat (get_next_lat lat d EAST) lon d EAST
  = lon + atan2 (sin (angular_distance d) * cos lat)
                (cos (angular_distance d) * (cos lat * cos lat)).
Proof.
  rewrite get_next_lat_east. unfold get_next_lon.
  rewrite EAST_eq, sin_PI2, sin_asin by apply sin_cos_prod_bound.
  pose proof (sin2_cos2 lat) as H. unfold Rsqr in H.
  f_equal. f_equal; [ring|].
  replace (cos lat * cos lat) with (1 - sin lat * sin lat) by lra. ring.
Qed.

Lemma atan_le (x y : R) : x <= y -> atan x <= atan y.
Proof.
  intros [H | ->]; [left; now apply atan_increasing | right; reflexivity].
Qed.

(** The longitude gained by a step due East, at a latitude of cosine [c],
    is at least the smaller of the angular distance and a quarter turn. *)
Lemma atan2_east_lower (ad c : R) :
  0 < ad < PI -> 0 < c <= 1 ->
  Rmin ad (PI / 2) <= atan2 (sin ad * c) (cos ad * (c * c)).
Proof.
  intros [Had0 Had1] [Hc0 Hc1].
  assert (Hs : 0 < sin ad) by now apply sin_gt_0.
  assert (Hy : 0 < sin ad * c) by now apply Rmult_lt_0_compat.
  assert (Hcc : 0 < c * c) by now apply Rmult_lt_0_compat.
  pose proof PI_RGT_0 as Hpi.
  unfold atan2.
  destruct (Rlt_dec 0 (cos ad * (c * c))) as [Hx | Hx].
  - assert (Hca : 0 < cos ad) by nra.
    assert (Hlt : ad < PI / 2).
    { destruct (Rlt_dec ad (PI / 2)) as [|Hn]; [assumption|].
      assert (cos ad <= 0) by (apply cos_le_0; lra). lra. }
    apply Rle_trans with ad; [apply Rmin_l|].
    rewrite <- (atan_tan ad) at 1 by lra.
    apply atan_le.
    assert (Ht : 0 < tan ad) by now apply tan_gt_0.
    replace (sin ad * c / (cos ad * (c * c))) with (tan ad * / c)
      by (unfold tan; field; lra).
    assert (1 <= / c).
    { rewrite <- Rinv_1. apply Rinv_le_contravar; lra. }
    nra.
  - apply Rle_trans with (PI / 2); [apply Rmin_r|].
    destruct (Rlt_dec (cos ad * (c * c)) 0).
    + destruct (Rle_dec 0 (sin ad * c)); [|lra].
      pose proof (atan_bound (sin ad * c / (cos ad * (c * c)))). lra.
    + destruct (Rlt_dec 0 (sin ad * c)); lra.
Qed.

Lemma Rmin_quarter_pos (ad : R) : 0 < ad -> 0 < Rmin ad (PI / 2).
Proof.
  intros H. apply Rmin_glb_lt; [exact H|]. pose proof PI_RGT_0. lra.
Qed.

Lemma degrees_pos (x : R) : 0 < x -> 0 < degrees x.
Proof.
  intros H. replace 0 with (degrees 0) at 1 by (unfold degrees; ring).
  now apply degrees_lt.
Qed.

Lemma radians_lat_open (lat : R) :
  -90 < lat < 90 -> - (PI / 2) < radians lat < PI / 2.
Proof.
  intros [Hl Hu].
  pose proof (radians_lt _ _ Hl) as Hl'. pose proof (radians_lt _ _ Hu) as Hu'.
  rewrite radians_m90 in Hl'. rewrite radians_90 in Hu'. now split.
Qed.

Lemma degrees_lat_open (x : R) :
  - (PI / 2) < x < PI / 2 -> -90 < degrees x < 90.
Proof.
  intros [Hl Hu].
  pose proof (degrees_lt _ _ Hl) as Hl'. pose proof (degrees_lt _ _ Hu) as Hu'.
  rewrite <- radians_m90, degrees_radians in Hl'.
  rewrite <- radians_90, degrees_radians in Hu'. now split.
Qed.

Lemma cos_lat_range (x : R) : - (PI / 2) < x < PI / 2 -> 0 < cos x <= 1.
Proof.
  intros [Hl Hu]. split; [now apply cos_gt_0 | apply COS_bound].
Qed.

(** A step due East from strictly between the poles stays strictly between
    the poles and gains longitude. *)
Lemma east_next_spec (d : R) (p : point) :
  0 < angular_distance d < PI ->
  -90 < p_lat p < 90 ->
  -90 < p_lat (east_next d p) < 90 /\
  p_lon p + degrees (Rmin (angular_distance d) (PI / 2))
    <= p_lon (east_next d p).
Proof.
  intros Had Hlat. destruct p as [lon lat]. unfold p_lat, p_lon in *. simpl in *.
  apply radians_lat_open in Hlat.
  pose proof (cos_lat_range _ Hlat) as Hc.
  unfold east_next, get_next_lat_lon, p_lat, p_lon. simpl.
  split.
  - apply degrees_lat_open. rewrite get_next_lat_east.
    apply asin_bound_lt.
    pose proof (SIN_bound (radians lat)) as Hsb.
    pose proof (COS_bound (angular_distance d)) as Hcb.
    assert (Hs1 : -1 < sin (radians lat) < 1).
    { pose proof (sin2_cos2 (radians lat)) as H2. unfold Rsqr in H2.
      split; nra. }
    destruct (Rle_dec 0 (sin (radians lat))); split; nra.
  - rewrite get_next_lon_east, degrees_plus, degrees_radians.
    apply Rplus_le_compat_l, degrees_le. now apply atan2_east_lower.
Qed.

(** ** What the walkers return *)

Lemma south_stop_true (lat_end : R) (p : point) :
  south_stop lat_end p = true <-> p_lat p < lat_end.
Proof.
  unfold south_stop. destruct (Rlt_dec (p_lat p) lat_end); split;
    intros; try discriminate; try reflexivity; try assumption; contradiction.
Qed.

Lemma south_stop_false (lat_end : R) (p : point) :
  south_stop lat_end p = false <-> p_lat p >= lat_end.
Proof.
  unfold south_stop. destruct (Rlt_dec (p_lat p) lat_end); split;
    intros; try discriminate; try reflexivity; lra.
Qed.

Lemma east_stop_true (lon_end : R) (p : point) :
  east_stop lon_end p = true <-> p_lon p > lon_end.
Proof.
  unfold east_stop. destruct (Rgt_dec (p_lon p) lon_end); split;
    intros; try discriminate; try reflexivity; try assumption; contradiction.
Qed.

Lemma east_stop_false (lon_end : R) (p : point) :
  east_stop lon_end p = false <-> p_lon p <= lon_end.
Proof.
  unfold east_stop. destruct (Rgt_dec (p_lon p) lon_end); split;
    intros; try discriminate; try reflexivity; lra.
Qed.

(** C2: a walk that returns, started on the empty list, returns a non-empty
    list; its last point is strictly past the target (latitude below it for
    the walk South, longitude above it for the walk East) and no earlier
    point is. *)
Theorem walk_overshoots_by_one_step :
  (forall fuel lat lon lat_end step pts,
      get_points_south fuel lat lon lat_end step [] = Some pts ->
      pts <> [] /\
      exists init last,
        pts = init ++ [last] /\ p_lat last < lat_end /\
        Forall (fun q => p_lat q >= lat_end) init) /\
  (forall fuel lat lon lon_end step pts,
      get_points_east fuel lat lon lon_end step [] = Some pts ->
      pts <> [] /\
      exists init last,
        pts = init ++ [last] /\ p_lon last > lon_end /\
        Forall (fun q => p_lon q <= lon_end) init).
Proof.
  split; intros fuel lat lon t step pts H.
  - rewrite get_points_south_walk in H.
    destruct (walk_shape _ _ _ _ _ H) as (init & last & -> & Hl & Hi).
    split; [now destruct init|].
    exists init, last. repeat split.
    + now apply south_stop_true.
    + eapply Forall_impl; [|exact Hi]. intros q. apply south_stop_false.
  - rewrite get_points_east_walk in H.
    destruct (walk_shape _ _ _ _ _ H) as (init & last & -> & Hl & Hi).
    split; [now destruct init|].
    exists init, last. repeat split.
    + now apply east_stop_true.
    + eapply Forall_impl; [|exact Hi]. intros q. apply east_stop_false.
Qed.

Lemma angular_distance_6371 : angular_distance 6371 = 1.
Proof. unfold angular_distance, RADIUS_OF_EARTH. field. Qed.

(** A walk South that starts on or above the target and is below it after
    one step returns two points. *)
Lemma get_points_south_two (lat lon lat_end d : R) :
  -90 <= lat <= 90 ->
  -90 <= lat - degrees (angular_distance d) <= 90 ->
  lat_end <= lat ->
  lat - degrees (angular_distance d) < lat_end ->
  get_points_south 2 lat lon lat_end d []
  = Some [(lon, lat); (lon, lat - degrees (angular_distance d))].
Proof.
  intros Hlat Hmid Hge Hlt. cbn [get_points_south app].
  destruct (Rlt_dec lat lat_end); [lra|].
  rewrite (get_next_lat_lon_south _ _ _ Hlat Hmid).
  destruct (Rlt_dec (lat - degrees (angular_distance d)) lat_end); [|lra].
  reflexivity.
Qed.

Lemma get_points_south_origin :
  get_points_south 2 0 0 0 6371 [] = Some [(0, 0); (0, 0 - degrees 1)].
Proof.
  rewrite <- angular_distance_6371.
  pose proof degrees_1_bounds as Hb.
  apply get_points_south_two; rewrite ?angular_distance_6371; lra.
Qed.

Lemma walk_overshoots_by_one_step_witness :
  [(0, 0); (0, 0 - degrees 1)] <> [] /\
  exists init last,
    [(0, 0); (0, 0 - degrees 1)] = init ++ [last] /\ p_lat last < 0 /\
    Forall (fun q => p_lat q >= 0) init.
Proof.
  apply (proj1 walk_overshoots_by_one_step 2%nat 0 0 0 6371).
  exact get_points_south_origin.
Defined.

(** The stop tests are strict: a walk that starts exactly on the target
    takes a step. *)
Lemma south_on_target_continues (fuel : nat) (lat lon step : R)
    (pts : list point) :
  get_points_south fuel lat lon lat step [] = Some pts ->
  exists q rest, pts = (lon, lat) :: q :: rest.
Proof.
  rewrite get_points_south_walk. apply walk_continue.
  apply south_stop_false. unfold p_lat. simpl. lra.
Qed.

Lemma east_on_target_continues (fuel : nat) (lat lon step : R)
    (pts : list point) :
  get_points_east fuel lat lon lon step [] = Some pts ->
  exists q rest, pts = (lon, lat) :: q :: rest.
Proof.
  rewrite get_points_east_walk. apply walk_continue.
  apply east_stop_false. unfold p_lon. simpl. lra.
Qed.

Lemma south_past_target_single (fuel : nat) (lat lon lat_end step : R) :
  lat < lat_end ->
  get_points_south (S fuel) lat lon lat_end step [] = Some [(lon, lat)].
Proof.
  intros H. rewrite get_points_south_walk. apply walk_stop_now.
  now apply south_stop_true.
Qed.

Lemma east_past_target_single (fuel : nat) (lat lon lon_end step : R) :
  lon > lon_end ->
  get_points_east (S fuel) lat lon lon_end step [] = Some [(lon, lat)].
Proof.
  intros H. rewrite get_points_east_walk. apply walk_stop_now.
  now apply east_stop_true.
Qed.

(** C3, as stated, fails: started at latitude 0 with target latitude 0 and a
    step of 6371 km, the walk South returns two points, and no amount of
    fuel makes it return the start point alone. *)
Lemma south_on_target_not_single :
  get_points_south 2 0 0 0 6371 [] = Some [(0, 0); (0, 0 - degrees 1)] /\
  forall fuel, get_points_south fuel 0 0 0 6371 [] <> Some [(0, 0)].
Proof.
  split; [exact get_points_south_origin|].
  intros fuel H.
  destruct (south_on_target_continues _ _ _ _ _ H) as (q & rest & E).
  discriminate E.
Qed.

(** C3, amended: a walk started strictly past its target returns the start
    point alone; a walk started exactly on its target, if it returns,
    returns the start point followed by at least one more point. *)
Theorem walk_from_the_target :
  (forall fuel lat lon lat_end step,
      lat < lat_end ->
      get_points_south (S fuel) lat lon lat_end step [] = Some [(lon, lat)]) /\
  (forall fuel lat lon step pts,
      get_points_south fuel lat lon lat step [] = Some pts ->
      exists q rest, pts = (lon, lat) :: q :: rest) /\
  (forall fuel lat lon lon_end step,
      lon > lon_end ->
      get_points_east (S fuel) lat lon lon_end step [] = Some [(lon, lat)]) /\
  (forall fuel lat lon step pts,
      get_points_east fuel lat lon lon step [] = Some pts ->
      exists q rest, pts = (lon, lat) :: q :: rest).
Proof.
  repeat split.
  - exact south_past_target_single.
  - exact south_on_target_continues.
  - exact east_past_target_single.
  - exact east_on_target_continues.
Qed.

Lemma walk_from_the_target_witness :
  get_points_south 1 0 0 1 6371 [] = Some [(0, 0)] /\
  exists q rest, [(0, 0); (0, 0 - degrees 1)] = (0, 0) :: q :: rest.
Proof.
  split.
  - apply (proj1 walk_from_the_target 0%nat 0 0 1 6371). lra.
  - apply (proj1 (proj2 walk_from_the_target) 2%nat 0 0 6371).
    exact get_points_south_origin.
Defined.

(** ** Termination of the walkers *)

Lemma angular_distance_third_turn : angular_distance (6371 * (PI / 3)) = PI / 3.
Proof. unfold angular_distance, RADIUS_OF_EARTH. field. Qed.

Lemma radians_m60 : radians (-60) = - (PI / 3).
Proof. unfold radians. field. Qed.

Lemma degrees_third : degrees (PI / 3) = 60.
Proof. unfold degrees. pose proof PI_RGT_0. field. lra. Qed.

(** A step of a sixth of a turn due South from latitude -60 passes over the
    pole and lands on latitude -60 again. *)
Lemma south_step_over_the_pole (lon : R) :
  p_lat (get_next_lat_lon (-60) lon (6371 * (PI / 3)) SOUTH) = -60.
Proof.
  rewrite p_lat_get_next_lat_lon. unfold get_next_lat.
  rewrite angular_distance_third_turn, radians_m60, SOUTH_eq.
  rewrite sin_neg, cos_neg, cos_PI, cos_PI3.
  replace (- sin (PI / 3) * (1 / 2) + 1 / 2 * sin (PI / 3) * -1)
    with (sin (- (PI / 3))) by (rewrite sin_neg; field).
  pose proof PI_RGT_0.
  rewrite asin_sin by lra.
  unfold degrees. field. lra.
Qed.

Lemma south_walk_over_the_pole (fuel : nat) (lon : R) (acc : list point) :
  get_points_south fuel (-60) lon (-80) (6371 * (PI / 3)) acc = None.
Proof.
  revert lon acc. induction fuel as [|fuel IH]; intros lon acc; [reflexivity|].
  cbn [get_points_south].
  destruct (Rlt_dec (-60) (-80)); [lra|].
  pose proof (south_step_over_the_pole lon) as Hl.
  destruct (get_next_lat_lon (-60) lon (6371 * (PI / 3)) SOUTH) as [lon' lat'].
  unfold p_lat in Hl. simpl in Hl. subst lat'. apply IH.
Qed.

(** C10, as stated, fails: with a positive step of 6371 * PI / 3 km, the
    target latitude -80 and the start latitude -60, the walk South returns
    for no amount of fuel. *)
Lemma south_walk_never_returns :
  0 < 6371 * (PI / 3) /\ -90 < -80 /\ -90 <= -60 <= 90 /\
  forall fuel, get_points_south fuel (-60) 0 (-80) (6371 * (PI / 3)) [] = None.
Proof.
  pose proof PI_RGT_0.
  repeat split; try lra.
  intros fuel. apply south_walk_over_the_pole.
Qed.

Lemma angular_distance_pos (d : R) : 0 < d -> 0 < angular_distance d.
Proof.
  intros H. unfold angular_distance, RADIUS_OF_EARTH.
  apply Rdiv_lt_0_compat; lra.
Qed.

Lemma south_next_spec (lat_end d : R) (p : point) :
  0 < d ->
  -90 <= lat_end - degrees (angular_distance d) ->
  lat_end <= p_lat p <= 90 ->
  south_next d p = (p_lon p, p_lat p - degrees (angular_distance d)).
Proof.
  intros Hd Hend Hp. unfold south_next.
  pose proof (degrees_pos _ (angular_distance_pos _ Hd)).
  apply get_next_lat_lon_south; lra.
Qed.

Lemma get_points_south_terminates (lat lon lat_end d : R) :
  0 < d -> lat <= 90 ->
  -90 <= lat_end - degrees (angular_distance d) ->
  exists fuel pts, get_points_south fuel lat lon lat_end d [] = Some pts.
Proof.
  intros Hd Hlat Hend.
  pose proof (degrees_pos _ (angular_distance_pos _ Hd)) as Hdeg.
  destruct (walk_terminates (south_stop lat_end) (south_next d)
              (fun p => p_lat p <= 90) (fun p => p_lat p - lat_end)
              (degrees (angular_distance d)) Hdeg) with (p := (lon, lat))
    as (fuel & pts & H).
  - intros p Hp. apply south_stop_true. lra.
  - intros p Hp Hs. apply south_stop_false in Hs.
    rewrite (south_next_spec lat_end) by (try assumption; lra).
    unfold p_lat. simpl. fold (p_lat p). lra.
  - intros p Hp Hs. apply south_stop_false in Hs.
    rewrite (south_next_spec lat_end) by (try assumption; lra).
    unfold p_lat. simpl. fold (p_lat p). lra.
  - exact Hlat.
  - exists fuel, pts. now rewrite get_points_south_walk.
Qed.

Lemma get_points_east_terminates (lat lon lon_end d : R) :
  0 < angular_distance d < PI -> -90 < lat < 90 ->
  exists fuel pts, get_points_east fuel lat lon lon_end d [] = Some pts.
Proof.
  intros Had Hlat.
  pose proof (degrees_pos _ (Rmin_quarter_pos _ (proj1 Had))) as Hdeg.
  destruct (walk_terminates (east_stop lon_end) (east_next d)
              (fun p => -90 < p_lat p < 90) (fun p => lon_end - p_lon p)
              (degrees (Rmin (angular_distance d) (PI / 2))) Hdeg)
    with (p := (lon, lat)) as (fuel & pts & H).
  - intros p Hp. apply east_stop_true. lra.
  - intros p Hp _. now apply east_next_spec.
  - intros p Hp _. pose proof (east_next_spec d p Had Hp). lra.
  - exact Hlat.
  - exists fuel, pts. now rewrite get_points_east_walk.
Qed.

(** C10, amended: the walk South returns for every positive step size when
    the start latitude is at most 90 degrees and the target latitude lowered
    by the angular distance is still at least -90 degrees, so that no step
    taken from on or above the target passes the pole; each such step keeps
    the longitude and lowers the latitude by exactly the angular distance.
    The walk East returns when the angular distance is strictly between 0
    and a half turn and the start latitude is strictly between the poles;
    each step then raises the longitude by at least the smaller of the
    angular distance and a quarter turn. *)
Theorem walks_terminate :
  (forall lat lon lat_end d,
      0 < d -> lat <= 90 ->
      -90 <= lat_end - degrees (angular_distance d) ->
      (exists fuel pts, get_points_south fuel lat lon lat_end d [] = Some pts) /\
      (forall lat' lon', lat_end <= lat' <= 90 ->
         get_next_lat_lon lat' lon' d SOUTH
         = (lon', lat' - degrees (angular_distance d)))) /\
  (forall lat lon lon_end d,
      0 < angular_distance d < PI -> -90 < lat < 90 ->
      (exists fuel pts, get_points_east fuel lat lon lon_end d [] = Some pts) /\
      (forall lat' lon', -90 < lat' < 90 ->
         p_lon (get_next_lat_lon lat' lon' d EAST)
         >= lon' + degrees (Rmin (angular_distance d) (PI / 2)))).
Proof.
  split.
  - intros lat lon lat_end d Hd Hlat Hend. split.
    + now apply get_points_south_terminates.
    + intros lat' lon' Hl.
      apply (south_next_spec lat_end d (lon', lat') Hd Hend Hl).
  - intros lat lon lon_end d Had Hlat. split.
    + now apply get_points_east_terminates.
    + intros lat' lon' Hl.
      apply Rle_ge, (east_next_spec d (lon', lat') Had Hl).
Qed.

Lemma walks_terminate_witness :
  (exists fuel pts, get_points_south fuel 45 10 0 6371 [] = Some pts) /\
  (exists fuel pts, get_points_east fuel 45 10 20 6371 [] = Some pts).
Proof.
  split.
  - apply (proj1 walks_terminate 45 10 0 6371).
    + lra.
    + lra.
    + rewrite angular_distance_6371. pose proof degrees_1_bounds. lra.
  - apply (proj2 walks_terminate 45 10 20 6371).
    + rewrite angular_distance_6371. pose proof one_lt_PI. lra.
    + lra.
Defined.

(** ** Polygon assembler *)

Section PolygonFacts.
Context {A : Type}.
Implicit Types (m : list (list A)) (polys : list (list A)).

Lemma rectangular_row m nrows ncols r :
  rectangular m nrows ncols -> (r < nrows)%nat ->
  exists row, nth_error m r = Some row /\ length row = ncols.
Proof.
  intros [Hn Hrows] Hr.
  destruct (nth_error m r) as [row|] eqn:E.
  - exists row. split; [reflexivity|].
    rewrite Forall_forall in Hrows. apply Hrows.
    now apply nth_error_In with r.
  - apply nth_error_None in E. lia.
Qed.

Lemma rectangular_at_rc m nrows ncols r c :
  rectangular m nrows ncols -> (r < nrows)%nat -> (c < ncols)%nat ->
  exists a, at_rc m r c = Some a.
Proof.
  intros Hm Hr Hc.
  destruct (rectangular_row _ _ _ _ Hm Hr) as (row & E & Hl).
  unfold at_rc. rewrite E.
  destruct (nth_error row c) as [a|] eqn:Ec; [now exists a|].
  apply nth_error_None in Ec. lia.
Qed.

Lemma rectangular_square m nrows ncols r c :
  rectangular m nrows ncols -> (r + 1 < nrows)%nat -> (c + 1 < ncols)%nat ->
  exists sq, get_square_at_rc r c m = Some sq /\ is_square_at m (r, c) sq.
Proof.
  intros Hm Hr Hc.
  destruct (rectangular_at_rc m nrows ncols r c Hm) as [a Ha]; try lia.
  destruct (rectangular_at_rc m nrows ncols (r + 1) c Hm) as [b Hb]; try lia.
  destruct (rectangular_at_rc m nrows ncols (r + 1) (c + 1) Hm) as [c' Hc'];
    try lia.
  destruct (rectangular_at_rc m nrows ncols r (c + 1) Hm) as [d Hd]; try lia.
  exists [a; b; c'; d]. split.
  - unfold get_square_at_rc. now rewrite Ha, Hb, Hc', Hd.
  - simpl. now exists a, b, c', d.
Qed.

(** The inner loop appends the squares of row [r], column by column. *)
Lemma squares_of_row_spec m nrows ncols r :
  rectangular m nrows ncols -> (r + 1 < nrows)%nat ->
  forall cs polys,
    Forall (fun c => (c + 1 < ncols)%nat) cs ->
    exists sqs,
      squares_of_row r cs m polys = Some (polys ++ sqs) /\
      Forall2 (is_square_at m) (map (pair r) cs) sqs.
Proof.
  intros Hm Hr cs. induction cs as [|c cs IH]; intros polys Hcs.
  - exists []. split; [simpl; now rewrite app_nil_r | constructor].
  - inversion Hcs as [|? ? Hc Hcs']; subst.
    destruct (rectangular_square _ _ _ _ _ Hm Hr Hc) as (sq & Hsq & Hq).
    destruct (IH (polys ++ [sq]) Hcs') as (sqs & Hrun & Hall).
    exists (sq :: sqs). split.
    + simpl. rewrite Hsq, Hrun. now rewrite <- app_assoc.
    + simpl. now constructor.
Qed.

(** The outer loop appends the squares row by row. *)
Lemma squares_of_rows_spec m nrows ncols :
  rectangular m nrows ncols ->
  forall rs polys,
    Forall (fun r => (r + 1 < nrows)%nat) rs ->
    exists sqs,
      squares_of_rows rs m polys = Some (polys ++ sqs) /\
      Forall2 (is_square_at m) (list_prod rs (seq 0 (ncols - 1))) sqs.
Proof.
  intros Hm rs. induction rs as [|r rs IH]; intros polys Hrs.
  - exists []. split; [simpl; now rewrite app_nil_r | constructor].
  - inversion Hrs as [|? ? Hr Hrs']; subst.
    destruct (rectangular_row _ _ _ r Hm) as (row & E & Hl); [lia|].
    destruct (squares_of_row_spec m nrows ncols r Hm Hr
                (seq 0 (ncols - 1)) polys) as (sq1 & Hrun1 & Hall1).
    { apply Forall_forall. intros c Hc. apply in_seq in Hc. lia. }
    destruct (IH (polys ++ sq1) Hrs') as (sq2 & Hrun2 & Hall2).
    exists (sq1 ++ sq2). split.
    + simpl. rewrite E, Hl, Hrun1, Hrun2. now rewrite <- app_assoc.
    + simpl. now apply Forall2_app.
Qed.

Lemma get_polygons_spec m nrows ncols :
  rectangular m nrows ncols ->
  exists polys,
    get_polygons m = Some polys /\
    length polys = ((nrows - 1) * (ncols - 1))%nat /\
    Forall2 (is_square_at m)
            (list_prod (seq 0 (nrows - 1)) (seq 0 (ncols - 1))) polys.
Proof.
  intros Hm.
  destruct (squares_of_rows_spec m nrows ncols Hm (seq 0 (nrows - 1)) [])
    as (polys & Hrun & Hall).
  { apply Forall_forall. intros r Hr. apply in_seq in Hr. lia. }
  exists polys. repeat split.
  - unfold get_polygons. destruct Hm as [Hn _]. now rewrite Hn.
  - rewrite <- (Forall2_length Hall), length_prod, !length_seq. reflexivity.
  - exact Hall.
Qed.

(** C4: on a matrix of [nrows >= 1] rows of [ncols >= 1] entries each,
    [get_polygons] returns [(nrows - 1) * (ncols - 1)] squares; they are,
    for [r] from 0 to [nrows - 2] and, within a row, [c] from 0 to
    [ncols - 2], the entries at [(r, c)], [(r+1, c)], [(r+1, c+1)] and
    [(r, c+1)]. *)
Theorem get_polygons_rectangular m nrows ncols :
  rectangular m nrows ncols -> (1 <= nrows)%nat -> (1 <= ncols)%nat ->
  exists polys,
    get_polygons m = Some polys /\
    length polys = ((nrows - 1) * (ncols - 1))%nat /\
    Forall2 (is_square_at m)
            (list_prod (seq 0 (nrows - 1)) (seq 0 (ncols - 1))) polys.
Proof.
  intros Hm _ _. now apply get_polygons_spec.
Qed.

(** The two loops of the point encoder concatenate the rows. *)
Lemma append_row_app (r coords : list A) : append_row r coords = coords ++ r.
Proof.
  revert coords. induction r as [|c r IH]; intros coords; simpl.
  - now rewrite app_nil_r.
  - rewrite IH. now rewrite <- app_assoc.
Qed.

Lemma append_rows_concat m (coords : list A) :
  append_rows m coords = coords ++ concat m.
Proof.
  revert coords. induction m as [|r m IH]; intros coords; simpl.
  - now rewrite app_nil_r.
  - rewrite IH, append_row_app. now rewrite <- app_assoc.
Qed.

Lemma flatten_points_concat m : flatten_points m = concat m.
Proof. unfold flatten_points. now rewrite append_rows_concat. Qed.

Lemma rectangular_concat_length m nrows ncols :
  rectangular m nrows ncols -> length (concat m) = (nrows * ncols)%nat.
Proof.
  intros [Hn Hrows]. subst nrows.
  induction Hrows as [|row m Hrow Hrows IH]; simpl; [reflexivity|].
  rewrite length_app, IH, Hrow. reflexivity.
Qed.
End PolygonFacts.

Example get_polygons_2x3 :
  get_polygons [[1; 2; 3]; [4; 5; 6]]%nat = Some [[1; 4; 5; 2]; [2; 5; 6; 3]]%nat.
Proof. reflexivity. Qed.

Example get_polygons_ragged :
  get_polygons [[1; 2; 3]; [4; 5]]%nat = None.
Proof. reflexivity. Qed.

Lemma get_polygons_rectangular_witness :
  exists polys,
    get_polygons [[1; 2; 3]; [4; 5; 6]]%nat = Some polys /\
    length polys = ((2 - 1) * (3 - 1))%nat /\
    Forall2 (is_square_at [[1; 2; 3]; [4; 5; 6]]%nat)
            (list_prod (seq 0 (2 - 1)) (seq 0 (3 - 1))) polys.
Proof.
  apply (get_polygons_rectangular [[1; 2; 3]; [4; 5; 6]]%nat 2 3).
  - split; [reflexivity | repeat constructor].
  - lia.
  - lia.
Defined.

(** ** GeoJSON encoder *)

(** C6: on a matrix of [nrows] rows of [ncols] entries each, the point
    encoder builds the MultiPoint document whose coordinates are the rows
    of the matrix one after the other, [nrows * ncols] pairs in all, and
    the polygon encoder builds the MultiPolygon document of the
    [(nrows - 1) * (ncols - 1)] squares of [get_polygons].  The subtraction
    is that of the natural numbers: a matrix with no row or no column has no
    square. *)
Theorem geo_json_counts (m : list (list point)) (nrows ncols : nat) :
  rectangular m nrows ncols ->
  (get_geo_json_points m
   = JObj [("type"%string, JStr "MultiPoint");
           ("coordinates"%string, json_points (concat m))] /\
   length (concat m) = (nrows * ncols)%nat) /\
  (exists polys,
      get_polygons m = Some polys /\
      get_geo_json_polys m
      = Some (JObj [("type"%string, JStr "MultiPolygon");
                    ("coordinates"%string, JArr [JArr (map json_points polys)])]) /\
      length polys = ((nrows - 1) * (ncols - 1))%nat).
Proof.
  intros Hm. split.
  - split.
    + unfold get_geo_json_points. now rewrite flatten_points_concat.
    + now apply rectangular_concat_length.
  - destruct (get_polygons_spec m nrows ncols Hm) as (polys & Hp & Hl & _).
    exists polys. repeat split; [exact Hp | | exact Hl].
    unfold get_geo_json_polys. now rewrite Hp.
Qed.

Lemma geo_json_counts_witness :
  (get_geo_json_points [[(0, 1); (1, 1)]; [(0, 0); (1, 0)]]
   = JObj [("type"%string, JStr "MultiPoint");
           ("coordinates"%string,
            json_points (concat [[(0, 1); (1, 1)]; [(0, 0); (1, 0)]]))] /\
   length (concat [[(0, 1); (1, 1)]; [(0, 0); (1, 0)]]) = (2 * 2)%nat) /\
  (exists polys,
      get_polygons [[(0, 1); (1, 1)]; [(0, 0); (1, 0)]] = Some polys /\
      get_geo_json_polys [[(0, 1); (1, 1)]; [(0, 0); (1, 0)]]
      = Some (JObj [("type"%string, JStr "MultiPolygon");
                    ("coordinates"%string, JArr [JArr (map json_points polys)])]) /\
      length polys = ((2 - 1) * (2 - 1))%nat).
Proof.
  apply (geo_json_counts [[(0, 1); (1, 1)]; [(0, 0); (1, 0)]] 2 2).
  split; [reflexivity | repeat constructor].
Defined.

(** ** Grid builders *)

Lemma get_points_south_mono (fuel fuel' : nat) (lat lon lat_end d : R)
    (pts : list point) :
  get_points_south fuel lat lon lat_end d [] = Some pts -> (fuel <= fuel')%nat ->
  get_points_south fuel' lat lon lat_end d [] = Some pts.
Proof. rewrite !get_points_south_walk. apply walk_mono. Qed.

Lemma get_points_east_mono (fuel fuel' : nat) (lat lon lon_end d : R)
    (pts : list point) :
  get_points_east fuel lat lon lon_end d [] = Some pts -> (fuel <= fuel')%nat ->
  get_points_east fuel' lat lon lon_end d [] = Some pts.
Proof. rewrite !get_points_east_walk. apply walk_mono. Qed.

Lemma get_points_south_head (fuel : nat) (lat lon lat_end d : R)
    (pts : list point) :
  get_points_south fuel lat lon lat_end d [] = Some pts ->
  exists rest, pts = (lon, lat) :: rest.
Proof. rewrite get_points_south_walk. apply walk_head. Qed.

Lemma get_points_east_head (fuel : nat) (lat lon lon_end d : R)
    (pts : list point) :
  get_points_east fuel lat lon lon_end d [] = Some pts ->
  exists rest, pts = (lon, lat) :: rest.
Proof. rewrite get_points_east_walk. apply walk_head. Qed.

(** The loop of a grid builder appends one row per anchor: the inner walk
    started at that anchor. *)
Lemma walk_each_spec (w : R -> R -> option (list point)) (anchors : list point) :
  forall acc m,
    walk_each w anchors acc = Some m ->
    exists rows,
      m = acc ++ rows /\
      Forall2 (fun a row => w (p_lat a) (p_lon a) = Some row) anchors rows.
Proof.
  induction anchors as [|[lon lat] anchors IH]; intros acc m; simpl.
  - intros [= <-]. exists []. split; [now rewrite app_nil_r | constructor].
  - destruct (w lat lon) as [row|] eqn:E; [|discriminate].
    intros H. destruct (IH _ _ H) as (rows & -> & Hall).
    exists (row :: rows). split; [now rewrite <- app_assoc|].
    constructor; assumption.
Qed.

Lemma south_then_east_rows (fuel : nat) (lat lon lat_end lon_end d : R)
    (m : list (list point)) :
  get_points_south_then_east fuel lat lon lat_end lon_end d = Some m ->
  exists anchors,
    get_points_south fuel lat lon lat_end d [] = Some anchors /\
    Forall2 (fun a row =>
               get_points_east fuel (p_lat a) (p_lon a) lon_end d [] = Some row)
            anchors m.
Proof.
  unfold get_points_south_then_east.
  destruct (get_points_south fuel lat lon lat_end d []) as [anchors|];
    [|discriminate].
  intros H. apply walk_each_spec in H. destruct H as (rows & -> & Hall).
  exists anchors. split; [reflexivity | exact Hall].
Qed.

Lemma east_then_south_rows (fuel : nat) (lat lon lat_end lon_end d : R)
    (m : list (list point)) :
  get_points_east_then_south fuel lat lon lat_end lon_end d = Some m ->
  exists anchors,
    get_points_east fuel lat lon lon_end d [] = Some anchors /\
    Forall2 (fun a row =>
               get_points_south fuel (p_lat a) (p_lon a) lat_end d [] = Some row)
            anchors m.
Proof.
  unfold get_points_east_then_south.
  destruct (get_points_east fuel lat lon lon_end d []) as [anchors|];
    [|discriminate].
  intros H. apply walk_each_spec in H. destruct H as (rows & -> & Hall).
  exists anchors. split; [reflexivity | exact Hall].
Qed.

(** C7, amended: a matrix built by either grid builder has one row per
    point of the first walk, every row starts at its point of the first
    walk (so no row is empty), and row 0 starts at the start point of the
    bounding box.  Nothing is said of the lengths of the rows. *)
Theorem grid_rows_start_at_anchors :
  (forall fuel lat lon lat_end lon_end d m,
      get_points_south_then_east fuel lat lon lat_end lon_end d = Some m ->
      (exists anchors,
          get_points_south fuel lat lon lat_end d [] = Some anchors /\
          Forall2 row_starts_at anchors m) /\
      exists rest rows, m = ((lon, lat) :: rest) :: rows) /\
  (forall fuel lat lon lat_end lon_end d m,
      get_points_east_then_south fuel lat lon lat_end lon_end d = Some m ->
      (exists anchors,
          get_points_east fuel lat lon lon_end d [] = Some anchors /\
          Forall2 row_starts_at anchors m) /\
      exists rest rows, m = ((lon, lat) :: rest) :: rows).
Proof.
  split; intros fuel lat lon lat_end lon_end d m H.
  - destruct (south_then_east_rows _ _ _ _ _ _ _ H) as (anchors & Ha & Hall).
    assert (Hst : Forall2 row_starts_at anchors m).
    { eapply Forall2_impl; [|exact Hall].
      intros [alon alat] row Hr. now apply get_points_east_head in Hr. }
    split; [now exists anchors|].
    destruct (get_points_south_head _ _ _ _ _ _ Ha) as [tl ->].
    inversion Hst as [|a row ? rows [rest ->] _]; subst.
    now exists rest, rows.
  - destruct (east_then_south_rows _ _ _ _ _ _ _ H) as (anchors & Ha & Hall).
    assert (Hst : Forall2 row_starts_at anchors m).
    { eapply Forall2_impl; [|exact Hall].
      intros [alon alat] row Hr. now apply get_points_south_head in Hr. }
    split; [now exists anchors|].
    destruct (get_points_east_head _ _ _ _ _ _ Ha) as [tl ->].
    inversion Hst as [|a row ? rows [rest ->] _]; subst.
    now exists rest, rows.
Qed.

Lemma grid_rows_start_at_anchors_witness :
  (exists anchors,
      get_points_south 1 0 0 1 (-1) [] = Some anchors /\
      Forall2 row_starts_at anchors [[(0, 0)]]) /\
  exists rest rows, [[(0, 0)]] = ((0, 0) :: rest) :: rows.
Proof.
  apply (proj1 grid_rows_start_at_anchors 1%nat 0 0 1 (-1) (-1)).
  unfold get_points_south_then_east.
  rewrite south_past_target_single by lra.
  cbn [walk_each]. rewrite east_past_target_single by lra.
  reflexivity.
Defined.

Lemma south_then_east_past_target (fuel : nat) (nw_lat nw_lon se_lat se_lon d : R) :
  nw_lat < se_lat -> nw_lon > se_lon ->
  get_points_south_then_east (S fuel) nw_lat nw_lon se_lat se_lon d
  = Some [[(nw_lon, nw_lat)]].
Proof.
  intros Hlat Hlon. unfold get_points_south_then_east.
  rewrite south_past_target_single by exact Hlat.
  cbn [walk_each]. rewrite east_past_target_single by exact Hlon.
  reflexivity.
Qed.

(** A walk East that starts on or before the target and is past it after
    one step returns two points. *)
Lemma get_points_east_two (lat lon lon_end d : R) :
  lon <= lon_end ->
  p_lon (get_next_lat_lon lat lon d EAST) > lon_end ->
  get_points_east 2 lat lon lon_end d []
  = Some [(lon, lat); get_next_lat_lon lat lon d EAST].
Proof.
  intros Hle Hgt. cbn [get_points_east app].
  destruct (Rgt_dec lon lon_end); [lra|].
  destruct (get_next_lat_lon lat lon d EAST) as [lon' lat'].
  unfold p_lon in Hgt. simpl in Hgt.
  destruct (Rgt_dec lon' lon_end); [reflexivity | contradiction].
Qed.

Lemma east_step_gains (lat lon d : R) :
  0 < angular_distance d < PI -> -90 < lat < 90 ->
  p_lon (get_next_lat_lon lat lon d EAST) > lon.
Proof.
  intros Had Hlat.
  pose proof (proj2 (east_next_spec d (lon, lat) Had Hlat)) as H.
  pose proof (degrees_pos _ (Rmin_quarter_pos _ (proj1 Had))) as Hp.
  unfold east_next, p_lon, p_lat in H. simpl in H.
  unfold p_lon. simpl. lra.
Qed.

(** With the two corners of the box equal, away from the poles, the grid
    has two rows of two points. *)
Lemma south_then_east_on_corner (lat lon d : R) :
  0 < angular_distance d < PI ->
  lat < 90 -> -90 < lat - degrees (angular_distance d) ->
  get_points_south_then_east 2 lat lon lat lon d
  = Some [[(lon, lat); get_next_lat_lon lat lon d EAST];
          [(lon, lat - degrees (angular_distance d));
           get_next_lat_lon (lat - degrees (angular_distance d)) lon d EAST]].
Proof.
  intros Had Hlat Hmid.
  pose proof (degrees_pos _ (proj1 Had)) as Hp.
  unfold get_points_south_then_east.
  rewrite get_points_south_two by lra.
  cbn [walk_each app].
  rewrite get_points_east_two by (try apply east_step_gains; try assumption; lra).
  rewrite get_points_east_two by (try apply east_step_gains; try assumption; lra).
  reflexivity.
Qed.

Lemma angular_distance_100_bounds : 0 < angular_distance 100 < 1.
Proof. unfold angular_distance, RADIUS_OF_EARTH. lra. Qed.

Lemma degrees_100_km_bounds : 0 < degrees (angular_distance 100) < 90.
Proof.
  destruct angular_distance_100_bounds as [H0 H1].
  pose proof (degrees_pos _ H0). pose proof (degrees_lt _ _ H1).
  pose proof degrees_1_bounds. lra.
Qed.

Lemma south_then_east_on_corner_45_10 :
  get_points_south_then_east 2 45 10 45 10 100
  = Some [[(10, 45); get_next_lat_lon 45 10 100 EAST];
          [(10, 45 - degrees (angular_distance 100));
           get_next_lat_lon (45 - degrees (angular_distance 100)) 10 100 EAST]].
Proof.
  pose proof angular_distance_100_bounds. pose proof degrees_100_km_bounds.
  pose proof one_lt_PI.
  apply south_then_east_on_corner; lra.
Qed.

(** C5, as stated, fails: with both corners at latitude 45 and longitude 10
    and a step of 100 km the grid has two rows of two points, of which
    [get_polygons] makes one square, and no amount of fuel makes the grid
    the single start point. *)
Lemma south_then_east_on_corner_not_single :
  (exists p01 p10 p11,
      get_points_south_then_east 2 45 10 45 10 100
      = Some [[(10, 45); p01]; [p10; p11]] /\
      get_polygons [[(10, 45); p01]; [p10; p11]]
      = Some [[(10, 45); p10; p11; p01]]) /\
  forall fuel,
    get_points_south_then_east fuel 45 10 45 10 100 <> Some [[(10, 45)]].
Proof.
  split.
  - do 3 eexists. split; [exact south_then_east_on_corner_45_10 | reflexivity].
  - intros fuel H.
    destruct (south_then_east_rows _ _ _ _ _ _ _ H) as (anchors & Ha & Hall).
    destruct (south_on_target_continues _ _ _ _ _ Ha) as (q & rest & ->).
    inversion Hall as [|? ? ? ? _ Htl]; subst. inversion Htl.
Qed.

(** C5, amended: when the two corners of the box are equal, a run of the
    South-then-East builder that returns never gives a single point: the
    matrix has at least two rows, and row 0 holds the corner followed by at
    least one more point.  The matrix is the single start point, of which
    [get_polygons] makes no square, when the first corner is strictly South
    and strictly East of the second. *)
Theorem degenerate_box_grid :
  (forall fuel lat lon d m,
      get_points_south_then_east fuel lat lon lat lon d = Some m ->
      exists p rest row1 rows, m = ((lon, lat) :: p :: rest) :: row1 :: rows) /\
  (forall fuel nw_lat nw_lon se_lat se_lon d,
      nw_lat < se_lat -> nw_lon > se_lon ->
      get_points_south_then_east (S fuel) nw_lat nw_lon se_lat se_lon d
      = Some [[(nw_lon, nw_lat)]] /\
      get_polygons [[(nw_lon, nw_lat)]] = Some []).
Proof.
  split.
  - intros fuel lat lon d m H.
    destruct (south_then_east_rows _ _ _ _ _ _ _ H) as (anchors & Ha & Hall).
    destruct (south_on_target_continues _ _ _ _ _ Ha) as (q & tl & ->).
    inversion Hall as [|? row0 ? rows0 Hrow0 Htl]; subst.
    inversion Htl as [|? row1 ? rows _ _]; subst.
    unfold p_lat, p_lon in Hrow0. simpl in Hrow0.
    destruct (east_on_target_continues _ _ _ _ _ Hrow0) as (p & rest & ->).
    now exists p, rest, row1, rows.
  - intros fuel nw_lat nw_lon se_lat se_lon d Hlat Hlon.
    split; [now apply south_then_east_past_target | reflexivity].
Qed.

Lemma degenerate_box_grid_witness :
  (exists p rest row1 rows,
      [[(10, 45); get_next_lat_lon 45 10 100 EAST];
       [(10, 45 - degrees (angular_distance 100));
        get_next_lat_lon (45 - degrees (angular_distance 100)) 10 100 EAST]]
      = ((10, 45) :: p :: rest) :: row1 :: rows) /\
  (get_points_south_then_east 1 0 0 1 (-1) 6371 = Some [[(0, 0)]] /\
   get_polygons [[(0, 0)]] = Some []).
Proof.
  split.
  - apply (proj1 degenerate_box_grid 2%nat 45 10 100).
    exact south_then_east_on_corner_45_10.
  - apply (proj2 degenerate_box_grid 0%nat 0 0 1 (-1) 6371); lra.
Defined.

(** ** Rows of different lengths *)

(** On the equator a step due East of less than a quarter turn stays on the
    equator and raises the longitude by the angular distance. *)
Lemma get_next_lat_lon_east_equator (lon d : R) :
  0 < angular_distance d < PI / 2 ->
  get_next_lat_lon 0 lon d EAST = (lon + degrees (angular_distance d), 0).
Proof.
  intros [Had0 Had1]. unfold get_next_lat_lon.
  rewrite get_next_lon_east, get_next_lat_east.
  replace (radians 0) with 0 by (unfold radians; ring).
  rewrite sin_0, cos_0, Rmult_0_l, asin_0.
  assert (Hc : 0 < cos (angular_distance d)) by (apply cos_gt_0; lra).
  rewrite atan2_right_pos by lra.
  replace (sin (angular_distance d) * 1 / (cos (angular_distance d) * (1 * 1)))
    with (tan (angular_distance d)) by (unfold tan; field; lra).
  rewrite atan_tan by lra.
  rewrite degrees_plus, degrees_radians.
  f_equal. unfold degrees. ring.
Qed.

Lemma sqrt3_lt_2 : sqrt 3 < 2.
Proof.
  pose proof (sqrt_sqrt 3) as H. pose proof (sqrt_pos 3). nra.
Qed.

Lemma atan_2_bounds : PI / 3 < atan 2 < PI / 2.
Proof.
  pose proof PI_RGT_0. split.
  - rewrite <- (atan_tan (PI / 3)) by lra.
    apply atan_increasing. rewrite tan_PI3. exact sqrt3_lt_2.
  - apply atan_bound.
Qed.

Lemma degrees_atan_2_bounds : 60 < degrees (atan 2) < 90.
Proof.
  destruct atan_2_bounds as [Hl Hu].
  apply degrees_lt in Hl, Hu.
  rewrite degrees_third in Hl.
  rewrite <- radians_90, degrees_radians in Hu. lra.
Qed.

Lemma half_lt_sin_third : 1 / 2 < sin (PI / 3).
Proof.
  pose proof (sin2_cos2 (PI / 3)) as H. unfold Rsqr in H.
  rewrite cos_PI3 in H.
  assert (0 < sin (PI / 3)) by (pose proof PI_RGT_0; apply sin_gt_0; lra).
  nra.
Qed.

Lemma radians_60 : radians 60 = PI / 3.
Proof. unfold radians. field. Qed.

(** At latitude 60 a step due East of a sixth of a turn gains more
    longitude than the angle of tangent 2. *)
Lemma east_step_at_60 :
  p_lon (get_next_lat_lon 60 0 (6371 * (PI / 3)) EAST) > degrees (atan 2).
Proof.
  unfold get_next_lat_lon, p_lon. simpl fst.
  rewrite get_next_lon_east, angular_distance_third_turn, radians_60, cos_PI3.
  replace (radians 0) with 0 by (unfold radians; ring).
  rewrite atan2_right_pos, Rplus_0_l by lra.
  apply Rlt_gt, degrees_lt, atan_increasing.
  replace (sin (PI / 3) * (1 / 2) / (1 / 2 * (1 / 2 * (1 / 2))))
    with (4 * sin (PI / 3)) by field.
  pose proof half_lt_sin_third. lra.
Qed.

Lemma third_turn_range : 0 < angular_distance (6371 * (PI / 3)) < PI / 2.
Proof. rewrite angular_distance_third_turn. pose proof PI_RGT_0. lra. Qed.

Lemma east_row_at_60 :
  get_points_east 3 60 0 (degrees (atan 2)) (6371 * (PI / 3)) []
  = Some [(0, 60); get_next_lat_lon 60 0 (6371 * (PI / 3)) EAST].
Proof.
  apply get_points_east_mono with 2%nat; [|lia].
  pose proof degrees_atan_2_bounds.
  apply get_points_east_two; [lra | exact east_step_at_60].
Qed.

Lemma east_row_at_equator :
  get_points_east 3 0 0 (degrees (atan 2)) (6371 * (PI / 3)) []
  = Some [(0, 0); (0 + 60, 0); (0 + 60 + 60, 0)].
Proof.
  pose proof degrees_atan_2_bounds as Hb.
  rewrite get_points_east_walk.
  rewrite walk_step.
  rewrite (proj2 (east_stop_false _ _)) by (unfold p_lon; simpl; lra).
  unfold east_next at 2. unfold p_lat, p_lon. simpl fst. simpl snd.
  rewrite (get_next_lat_lon_east_equator _ _ third_turn_range).
  rewrite angular_distance_third_turn, degrees_third.
  rewrite walk_step.
  rewrite (proj2 (east_stop_false _ _)) by (unfold p_lon; simpl; lra).
  unfold east_next at 2. unfold p_lat, p_lon. simpl fst. simpl snd.
  rewrite (get_next_lat_lon_east_equator _ _ third_turn_range).
  rewrite angular_distance_third_turn, degrees_third.
  rewrite walk_stop_now by (apply east_stop_true; unfold p_lon; simpl; lra).
  reflexivity.
Qed.

Lemma south_anchors_from_60 :
  get_points_south 3 60 0 60 (6371 * (PI / 3)) [] = Some [(0, 60); (0, 0)].
Proof.
  apply get_points_south_mono with 2%nat; [|lia].
  replace (0, 0) with (0, 60 - degrees (angular_distance (6371 * (PI / 3))))
    by (rewrite angular_distance_third_turn, degrees_third; f_equal; ring).
  apply get_points_south_two;
    rewrite ?angular_distance_third_turn, ?degrees_third; lra.
Qed.

(** C7, as stated, fails: from the corner (60, 0) to the corner of latitude
    60 and longitude [degrees (atan 2)], about 63.4 degrees, with a step
    of 6371 * PI / 3 km, the row walked at latitude 60 has two points and
    the row walked on the equator has three. *)
Lemma south_then_east_not_rectangular :
  exists r0 r1,
    get_points_south_then_east 3 60 0 60 (degrees (atan 2)) (6371 * (PI / 3))
    = Some [r0; r1] /\
    length r0 = 2%nat /\ length r1 = 3%nat /\
    forall nrows ncols, ~ rectangular [r0; r1] nrows ncols.
Proof.
  exists [(0, 60); get_next_lat_lon 60 0 (6371 * (PI / 3)) EAST],
         [(0, 0); (0 + 60, 0); (0 + 60 + 60, 0)].
  split; [|split; [reflexivity | split; [reflexivity|]]].
  - unfold get_points_south_then_east.
    rewrite south_anchors_from_60. cbn [walk_each app].
    rewrite east_row_at_60, east_row_at_equator. reflexivity.
  - intros nrows ncols [_ Hrows].
    inversion Hrows as [|? ? H0 Htl]; subst.
    inversion Htl as [|? ? H1 _]; subst.
    simpl in H1. discriminate H1.
Qed.

(** * Further properties of the stepper *)

Lemma cos_right_north (lat ad : R) :
  cos ad - sin lat * sin (lat + ad) = cos lat * cos (lat + ad).
Proof.
  replace (cos ad) with (cos (lat + ad - lat)) by (f_equal; ring).
  rewrite (cos_minus (lat + ad) lat). ring.
Qed.

Lemma radians_plus_degrees (lat a : R) :
  radians (lat + degrees a) = radians lat + a.
Proof. now rewrite radians_plus, radians_degrees. Qed.

Lemma get_next_lat_lon_north (lat lon d : R) :
  -90 <= lat <= 90 ->
  -90 <= lat + degrees (angular_distance d) <= 90 ->
  get_next_lat_lon lat lon d NORTH = (lon, lat + degrees (angular_distance d)).
Proof.
  intros Hlat Hmid. apply radians_lat_range in Hlat, Hmid.
  rewrite radians_plus_degrees in Hmid.
  unfold get_next_lat_lon.
  rewrite (get_next_lat_north _ _ Hmid).
  unfold get_next_lon. rewrite NORTH_eq, sin_0, cos_right_north.
  replace (0 * sin (angular_distance d) * cos (radians lat)) with 0 by ring.
  rewrite atan2_0_nonneg.
  - rewrite Rplus_0_r, degrees_radians, degrees_plus, degrees_radians.
    reflexivity.
  - apply Rmult_le_pos; apply cos_ge_0; lra.
Qed.

(** X2: a step due North or due South that starts and ends within
    [-90, 90] degrees keeps the longitude and changes the latitude by
    exactly the angular distance, in degrees. *)
Theorem meridian_steps (lat lon d : R) :
  -90 <= lat <= 90 ->
  (-90 <= lat + degrees (angular_distance d) <= 90 ->
   get_next_lat_lon lat lon d NORTH
   = (lon, lat + degrees (angular_distance d))) /\
  (-90 <= lat - degrees (angular_distance d) <= 90 ->
   get_next_lat_lon lat lon d SOUTH
   = (lon, lat - degrees (angular_distance d))).
Proof.
  intros Hlat. split; intros Hmid.
  - now apply get_next_lat_lon_north.
  - now apply get_next_lat_lon_south.
Qed.

Lemma meridian_steps_witness :
  get_next_lat_lon 0 10 6371 NORTH = (10, 0 + degrees (angular_distance 6371)) /\
  get_next_lat_lon 0 10 6371 SOUTH = (10, 0 - degrees (angular_distance 6371)).
Proof.
  pose proof degrees_1_bounds as Hb.
  split.
  - apply (proj1 (meridian_steps 0 10 6371 ltac:(lra))).
    rewrite angular_distance_6371. lra.
  - apply (proj2 (meridian_steps 0 10 6371 ltac:(lra))).
    rewrite angular_distance_6371. lra.
Defined.

(** X3: a step due South followed by a step due North of the same
    distance, or North followed by South, comes back to the point it
    left, longitude included, when no latitude on the way leaves
    [-90, 90] degrees. *)
Theorem meridian_round_trip (lat lon d : R) :
  -90 <= lat <= 90 ->
  (-90 <= lat - degrees (angular_distance d) <= 90 ->
   let s := get_next_lat_lon lat lon d SOUTH in
   get_next_lat_lon (p_lat s) (p_lon s) d NORTH = (lon, lat)) /\
  (-90 <= lat + degrees (angular_distance d) <= 90 ->
   let n := get_next_lat_lon lat lon d NORTH in
   get_next_lat_lon (p_lat n) (p_lon n) d SOUTH = (lon, lat)).
Proof.
  intros Hlat. split; intros Hmid x; subst x.
  - rewrite (get_next_lat_lon_south _ _ _ Hlat Hmid).
    unfold p_lat, p_lon. simpl fst. simpl snd.
    rewrite get_next_lat_lon_north; [f_equal; ring | exact Hmid | lra].
  - rewrite (get_next_lat_lon_north _ _ _ Hlat Hmid).
    unfold p_lat, p_lon. simpl fst. simpl snd.
    rewrite get_next_lat_lon_south; [f_equal; ring | exact Hmid | lra].
Qed.

Lemma meridian_round_trip_witness :
  get_next_lat_lon (p_lat (get_next_lat_lon 0 10 6371 SOUTH))
                   (p_lon (get_next_lat_lon 0 10 6371 SOUTH)) 6371 NORTH
  = (10, 0) /\
  get_next_lat_lon (p_lat (get_next_lat_lon 0 10 6371 NORTH))
                   (p_lon (get_next_lat_lon 0 10 6371 NORTH)) 6371 SOUTH
  = (10, 0).
Proof.
  pose proof degrees_1_bounds as Hb.
  split.
  - apply (proj1 (meridian_round_trip 0 10 6371 ltac:(lra))).
    rewrite angular_distance_6371. lra.
  - apply (proj2 (meridian_round_trip 0 10 6371 ltac:(lra))).
    rewrite angular_distance_6371. lra.
Defined.

Lemma WEST_eq : WEST = 3 * (PI / 2).
Proof. unfold WEST, radians. field. Qed.

Lemma sin_3PI2 : sin (3 * (PI / 2)) = -1.
Proof.
  replace (3 * (PI / 2)) with (PI + PI / 2) by field.
  rewrite sin_plus, sin_PI, cos_PI, sin_PI2. ring.
Qed.

Lemma atan2_opp_pos (y x : R) : 0 < y -> atan2 (- y) x = - atan2 y x.
Proof.
  intros Hy. unfold atan2.
  replace (- y / x) with (- (y / x)) by (unfold Rdiv; ring).
  rewrite atan_opp.
  destruct (Rlt_dec 0 x); [reflexivity|].
  destruct (Rlt_dec x 0).
  - destruct (Rle_dec 0 (- y)); [lra|].
    destruct (Rle_dec 0 y); [ring | lra].
  - destruct (Rlt_dec 0 (- y)); [lra|].
    destruct (Rlt_dec (- y) 0); [|lra].
    destruct (Rlt_dec 0 y); [reflexivity | lra].
Qed.

Lemma get_next_lat_west (lat d : R) :
  get_next_lat lat d WEST = get_next_lat lat d EAST.
Proof.
  unfold get_next_lat. rewrite WEST_eq, EAST_eq, cos_3PI2, cos_PI2.
  reflexivity.
Qed.

(** X4: strictly between the poles and for an angular distance strictly
    between 0 and a half turn, a step due West reaches the latitude of the
    step due East and moves the longitude by the opposite amount. *)
Theorem west_mirrors_east (lat lon d : R) :
  0 < angular_distance d < PI -> -90 < lat < 90 ->
  p_lat (get_next_lat_lon lat lon d WEST)
  = p_lat (get_next_lat_lon lat lon d EAST) /\
  p_lon (get_next_lat_lon lat lon d WEST) - lon
  = - (p_lon (get_next_lat_lon lat lon d EAST) - lon).
Proof.
  intros [Had0 Had1] Hlat. apply radians_lat_open in Hlat.
  pose proof (cos_lat_range _ Hlat) as [Hc _].
  assert (Hs : 0 < sin (angular_distance d)) by now apply sin_gt_0.
  unfold get_next_lat_lon, p_lat, p_lon. simpl fst. simpl snd.
  rewrite get_next_lat_west. split; [reflexivity|].
  unfold get_next_lon. rewrite WEST_eq, EAST_eq, sin_3PI2, sin_PI2.
  replace (-1 * sin (angular_distance d) * cos (radians lat))
    with (- (1 * sin (angular_distance d) * cos (radians lat))) by ring.
  rewrite atan2_opp_pos by nra.
  rewrite !degrees_plus, degrees_radians.
  unfold degrees. ring.
Qed.

Lemma west_mirrors_east_witness :
  p_lat (get_next_lat_lon 45 10 6371 WEST)
  = p_lat (get_next_lat_lon 45 10 6371 EAST) /\
  p_lon (get_next_lat_lon 45 10 6371 WEST) - 10
  = - (p_lon (get_next_lat_lon 45 10 6371 EAST) - 10).
Proof.
  apply (west_mirrors_east 45 10 6371).
  - rewrite angular_distance_6371. pose proof one_lt_PI. lra.
  - lra.
Defined.

Lemma asin_le (x y : R) : -1 <= x -> x <= y -> y <= 1 -> asin x <= asin y.
Proof.
  intros Hx Hxy Hy.
  destruct (Rle_dec (asin x) (asin y)) as [|Hn]; [assumption|].
  exfalso. apply Rnot_le_lt in Hn.
  pose proof (asin_bound x) as [? ?]. pose proof (asin_bound y) as [? ?].
  apply sin_increasing_1 in Hn; try assumption.
  rewrite !sin_asin in Hn by lra. lra.
Qed.

Lemma asin_sin_cos_abs (lat ad : R) :
  - (PI / 2) <= lat <= PI / 2 ->
  - Rabs lat <= asin (sin lat * cos ad) <= Rabs lat.
Proof.
  intros Hlat.
  pose proof (COS_bound ad) as Hc. pose proof (SIN_bound lat) as Hs.
  pose proof (sin_cos_prod_bound lat ad) as Hp.
  assert (Hbound : 0 <= sin lat \/ sin lat <= 0 ->
                   asin (- Rabs (sin lat)) <= asin (sin lat * cos ad)
                   <= asin (Rabs (sin lat))).
  { intros _. unfold Rabs. destruct (Rcase_abs (sin lat));
      split; apply asin_le; nra. }
  destruct (Rle_dec 0 lat) as [Hpos | Hneg].
  - rewrite Rabs_pos_eq by assumption.
    assert (H0 : 0 <= sin lat) by (apply sin_ge_0; pose proof PI_RGT_0; lra).
    specialize (Hbound (or_introl H0)).
    rewrite (Rabs_pos_eq _ H0), asin_opp, asin_sin in Hbound by assumption.
    exact Hbound.
  - apply Rnot_le_lt in Hneg. rewrite Rabs_left by assumption.
    assert (H0 : sin lat <= 0).
    { pose proof (sin_ge_0 (- lat)) as H0. rewrite sin_neg in H0.
      pose proof PI_RGT_0. lra. }
    specialize (Hbound (or_intror H0)).
    rewrite (Rabs_left1 _ H0), Ropp_involutive, asin_opp, asin_sin in Hbound
      by assumption.
    lra.
Qed.

Lemma degrees_Rabs (x : R) : degrees (Rabs x) = Rabs (degrees x).
Proof.
  unfold degrees. rewrite Rabs_mult. f_equal.
  symmetry. apply Rabs_pos_eq. left.
  apply Rdiv_lt_0_compat; [lra | exact PI_RGT_0].
Qed.

(** X5: a step due East does not stay on its parallel: whatever the
    distance, the latitude it reaches is at most as far from the equator
    as the latitude it left. *)
Theorem east_step_toward_equator (lat lon d : R) :
  -90 <= lat <= 90 ->
  Rabs (p_lat (get_next_lat_lon lat lon d EAST)) <= Rabs lat.
Proof.
  intros Hlat. apply radians_lat_range in Hlat.
  rewrite p_lat_get_next_lat_lon, get_next_lat_east.
  pose proof (asin_sin_cos_abs _ (angular_distance d) Hlat) as [Hl Hu].
  apply degrees_le in Hl, Hu.
  replace (degrees (- Rabs (radians lat))) with (- degrees (Rabs (radians lat)))
    in Hl by (unfold degrees; ring).
  rewrite degrees_Rabs, degrees_radians in Hl, Hu.
  now apply Rabs_le.
Qed.

Lemma east_step_toward_equator_witness :
  Rabs (p_lat (get_next_lat_lon 45 10 6371 EAST)) <= Rabs 45.
Proof.
  apply (east_step_toward_equator 45 10 6371). lra.
Defined.

(** * Further properties of the walkers *)

Section WalkChain.
Variable stop : point -> bool.
Variable next : point -> point.

(** Each point of a returned walk but the first is the step from the
    point before it, which failed the stop test. *)
Lemma walk_chain (fuel : nat) (p : point) (pts : list point) :
  walk stop next fuel p [] = Some pts ->
  forall i a b,
    nth_error pts i = Some a -> nth_error pts (S i) = Some b ->
    stop a = false /\ b = next a.
Proof.
  revert p pts. induction fuel as [|fuel IH]; intros p pts; [discriminate|].
  rewrite walk_step. destruct (stop p) eqn:Hs.
  - intros [= <-] i a b _ Hb. destruct i; discriminate Hb.
  - destruct (walk stop next fuel (next p) []) as [tl|] eqn:E; [|discriminate].
    intros [= <-] i a b Ha Hb. destruct i as [|i].
    + injection Ha as <-. destruct (walk_head _ _ _ _ _ E) as [rest ->].
      injection Hb as <-. now split.
    + exact (IH _ _ E i a b Ha Hb).
Qed.

Lemma walk_inv (inv : point -> Prop) :
  (forall q, inv q -> stop q = false -> inv (next q)) ->
  forall fuel p pts,
    inv p -> walk stop next fuel p [] = Some pts -> Forall inv pts.
Proof.
  intros Hnext fuel. induction fuel as [|fuel IH]; intros p pts Hp;
    [discriminate|].
  rewrite walk_step. destruct (stop p) eqn:Hs.
  - intros [= <-]. now constructor.
  - destruct (walk stop next fuel (next p) []) as [tl|] eqn:E; [|discriminate].
    intros [= <-]. constructor; [exact Hp|].
    apply (IH (next p)); [now apply Hnext | exact E].
Qed.
End WalkChain.

(** X6: a walker called with a list that is not empty returns that list
    followed by what it returns on the empty list; it fails on the one
    exactly when it fails on the other. *)
Theorem walkers_extend_the_given_list (fuel : nat) (lat lon t d : R)
    (acc : list point) :
  get_points_south fuel lat lon t d acc
  = option_map (app acc) (get_points_south fuel lat lon t d []) /\
  get_points_east fuel lat lon t d acc
  = option_map (app acc) (get_points_east fuel lat lon t d []).
Proof.
  rewrite !get_points_south_walk, !get_points_east_walk.
  split; apply walk_acc.
Qed.

(** X7: a returned walk starts with the start point, and each later point
    is the stepper's step, due South or due East, from the point before
    it. *)
Theorem walk_points_are_successive_steps :
  (forall fuel lat lon lat_end d pts,
      get_points_south fuel lat lon lat_end d [] = Some pts ->
      nth_error pts 0 = Some (lon, lat) /\
      forall i a b,
        nth_error pts i = Some a -> nth_error pts (S i) = Some b ->
        b = get_next_lat_lon (p_lat a) (p_lon a) d SOUTH) /\
  (forall fuel lat lon lon_end d pts,
      get_points_east fuel lat lon lon_end d [] = Some pts ->
      nth_error pts 0 = Some (lon, lat) /\
      forall i a b,
        nth_error pts i = Some a -> nth_error pts (S i) = Some b ->
        b = get_next_lat_lon (p_lat a) (p_lon a) d EAST).
Proof.
  split; intros fuel lat lon t d pts H.
  - rewrite get_points_south_walk in H. split.
    + now destruct (walk_head _ _ _ _ _ H) as [rest ->].
    + intros i a b Ha Hb. now destruct (walk_chain _ _ _ _ _ H i a b Ha Hb).
  - rewrite get_points_east_walk in H. split.
    + now destruct (walk_head _ _ _ _ _ H) as [rest ->].
    + intros i a b Ha Hb. now destruct (walk_chain _ _ _ _ _ H i a b Ha Hb).
Qed.

Lemma walk_points_are_successive_steps_witness :
  nth_error [(0, 0); (0, 0 - degrees 1)] 0 = Some (0, 0) /\
  forall i a b,
    nth_error [(0, 0); (0, 0 - degrees 1)] i = Some a ->
    nth_error [(0, 0); (0, 0 - degrees 1)] (S i) = Some b ->
    b = get_next_lat_lon (p_lat a) (p_lon a) 6371 SOUTH.
Proof.
  apply (proj1 walk_points_are_successive_steps 2%nat 0 0 0 6371).
  exact get_points_south_origin.
Defined.

Lemma nth_error_snoc {A : Type} (l : list A) (a : A) :
  nth_error (l ++ [a]) (length l) = Some a.
Proof. induction l as [|x l IH]; simpl; [reflexivity | exact IH]. Qed.

Lemma nth_error_snoc_before {A : Type} (l : list A) (a b : A) :
  nth_error ((l ++ [a]) ++ [b]) (length l) = Some a.
Proof. induction l as [|x l IH]; simpl; [reflexivity | exact IH]. Qed.

Lemma south_walk_nth (fuel : nat) (lat lon lat_end d : R) (pts : list point) :
  0 < d -> lat <= 90 ->
  -90 <= lat_end - degrees (angular_distance d) ->
  get_points_south fuel lat lon lat_end d [] = Some pts ->
  forall k p,
    nth_error pts k = Some p ->
    p = (lon, lat - INR k * degrees (angular_distance d)).
Proof.
  intros Hd Hlat Hend H. rewrite get_points_south_walk in H.
  pose proof (degrees_pos _ (angular_distance_pos _ Hd)) as Hdeg.
  induction k as [|k IH]; intros p Hp.
  - destruct (walk_head _ _ _ _ _ H) as [rest ->].
    injection Hp as <-. simpl. f_equal. ring.
  - destruct (nth_error pts k) as [a|] eqn:Ea.
    + destruct (walk_chain _ _ _ _ _ H k a p Ea Hp) as [Hs ->].
      rewrite (IH a eq_refl) in *.
      apply south_stop_false in Hs. unfold p_lat in Hs. simpl in Hs.
      pose proof (pos_INR k) as Hk.
      rewrite (south_next_spec lat_end); try assumption.
      * unfold p_lat, p_lon. simpl fst. simpl snd. rewrite S_INR.
        f_equal. ring.
      * unfold p_lat. simpl. nra.
    + apply nth_error_None in Ea.
      assert (nth_error pts (S k) = None) by (apply nth_error_None; lia).
      congruence.
Qed.

(** X8: a walk South that never passes the pole stays on the meridian of
    its start and puts its k-th point k angular distances below the start
    latitude; started on or above the target, it returns n + 2 points,
    where n angular distances still fit between the target and the start
    and n + 1 do not. *)
Theorem south_walk_points (fuel : nat) (lat lon lat_end d : R)
    (pts : list point) :
  0 < d -> lat <= 90 ->
  -90 <= lat_end - degrees (angular_distance d) ->
  get_points_south fuel lat lon lat_end d [] = Some pts ->
  (forall k p,
      nth_error pts k = Some p ->
      p = (lon, lat - INR k * degrees (angular_distance d))) /\
  (lat_end <= lat ->
   exists n,
     length pts = S (S n) /\
     lat - INR (S n) * degrees (angular_distance d) < lat_end
     <= lat - INR n * degrees (angular_distance d)).
Proof.
  intros Hd Hlat Hend H.
  pose proof (south_walk_nth _ _ _ _ _ _ Hd Hlat Hend H) as Hnth.
  split; [exact Hnth|]. intros Hge.
  rewrite get_points_south_walk in H.
  destruct (walk_shape _ _ _ _ _ H) as (init & last & -> & Hl & Hi).
  destruct init as [|x init'] using rev_ind.
  - destruct (walk_head _ _ _ _ _ H) as [rest E]. injection E as -> _.
    apply south_stop_true in Hl. unfold p_lat in Hl. simpl in Hl. lra.
  - clear IHinit'. exists (length init').
    split; [rewrite !length_app; simpl; lia|].
    pose proof (Hnth _ _ (nth_error_snoc_before init' x last)) as Ex.
    assert (El : nth_error ((init' ++ [x]) ++ [last]) (S (length init'))
                 = Some last).
    { replace (S (length init')) with (length (init' ++ [x]))
        by (rewrite length_app; simpl; lia).
      apply nth_error_snoc. }
    apply Hnth in El.
    apply south_stop_true in Hl.
    rewrite Forall_forall in Hi.
    assert (Hx : south_stop lat_end x = false).
    { apply Hi. apply in_or_app. right. now left. }
    apply south_stop_false in Hx.
    rewrite El in Hl. rewrite Ex in Hx. unfold p_lat in Hl, Hx.
    cbn [snd] in Hl, Hx. lra.
Qed.

Lemma south_walk_points_witness :
  (forall k p,
      nth_error [(0, 0); (0, 0 - degrees 1)] k = Some p ->
      p = (0, 0 - INR k * degrees (angular_distance 6371))) /\
  (0 <= 0 ->
   exists n,
     length [(0, 0); (0, 0 - degrees 1)] = S (S n) /\
     0 - INR (S n) * degrees (angular_distance 6371) < 0
     <= 0 - INR n * degrees (angular_distance 6371)).
Proof.
  apply (south_walk_points 2 0 0 0 6371).
  - lra.
  - lra.
  - rewrite angular_distance_6371. pose proof degrees_1_bounds. lra.
  - exact get_points_south_origin.
Defined.

Lemma east_next_abs_lat (d : R) (p : point) :
  -90 < p_lat p < 90 -> Rabs (p_lat (east_next d p)) <= Rabs (p_lat p).
Proof.
  intros Hlat. destruct p as [lon lat]. unfold p_lat in *. simpl in *.
  assert (Hr : - (PI / 2) <= radians lat <= PI / 2)
    by (apply radians_lat_range; lra).
  unfold east_next, get_next_lat_lon, p_lat, p_lon. simpl.
  rewrite get_next_lat_east.
  pose proof (asin_sin_cos_abs _ (angular_distance d) Hr) as [Hl Hu].
  apply degrees_le in Hl, Hu.
  replace (degrees (- Rabs (radians lat))) with (- degrees (Rabs (radians lat)))
    in Hl by (unfold degrees; ring).
  rewrite degrees_Rabs, degrees_radians in Hl, Hu.
  now apply Rabs_le.
Qed.

(** X9: along a walk East that starts strictly between the poles, with an
    angular distance strictly between 0 and a half turn, every point is
    strictly between the poles, each point lies East of the one before it by
    at least the smaller of the angular distance and a quarter turn, and no
    point is farther from the equator than the one before it. *)
Theorem east_walk_points (fuel : nat) (lat lon lon_end d : R)
    (pts : list point) :
  0 < angular_distance d < PI -> -90 < lat < 90 ->
  get_points_east fuel lat lon lon_end d [] = Some pts ->
  Forall (fun p => -90 < p_lat p < 90) pts /\
  forall i a b,
    nth_error pts i = Some a -> nth_error pts (S i) = Some b ->
    p_lon a + degrees (Rmin (angular_distance d) (PI / 2)) <= p_lon b /\
    Rabs (p_lat b) <= Rabs (p_lat a).
Proof.
  intros Had Hlat H. rewrite get_points_east_walk in H.
  assert (Hall : Forall (fun p => -90 < p_lat p < 90) pts).
  { refine (walk_inv _ _ (fun p => -90 < p_lat p < 90) _ fuel (lon, lat) pts
                      Hlat H).
    intros q Hq _. now apply east_next_spec. }
  split; [exact Hall|].
  intros i a b Ha Hb.
  destruct (walk_chain _ _ _ _ _ H i a b Ha Hb) as [_ ->].
  rewrite Forall_forall in Hall.
  pose proof (Hall a (nth_error_In _ _ Ha)) as Hq.
  split; [now apply east_next_spec | now apply east_next_abs_lat].
Qed.

Lemma east_walk_points_witness :
  Forall (fun p => -90 < p_lat p < 90)
         [(0, 0); get_next_lat_lon 0 0 6371 EAST] /\
  forall i a b,
    nth_error [(0, 0); get_next_lat_lon 0 0 6371 EAST] i = Some a ->
    nth_error [(0, 0); get_next_lat_lon 0 0 6371 EAST] (S i) = Some b ->
    p_lon a + degrees (Rmin (angular_distance 6371) (PI / 2)) <= p_lon b /\
    Rabs (p_lat b) <= Rabs (p_lat a).
Proof.
  assert (Had : 0 < angular_distance 6371 < PI).
  { rewrite angular_distance_6371. pose proof one_lt_PI. lra. }
  apply (east_walk_points 2 0 0 0 6371 _ Had).
  - lra.
  - apply get_points_east_two; [lra|].
    apply east_step_gains; [exact Had | lra].
Defined.

(** * Further properties of the polygon assembler *)

Section RaggedMatrices.
Context {A : Type}.
Implicit Types (m : list (list A)) (polys out : list (list A)).

Lemma at_rc_some m r c (a : A) :
  at_rc m r c = Some a ->
  exists row, nth_error m r = Some row /\ (c < length row)%nat.
Proof.
  unfold at_rc. destruct (nth_error m r) as [row|]; [|discriminate].
  intros H. exists row. split; [reflexivity|].
  apply nth_error_Some. congruence.
Qed.

Lemma at_rc_in_range m r c row :
  nth_error m r = Some row -> (c < length row)%nat ->
  exists a, at_rc m r c = Some a.
Proof.
  intros E Hc. unfold at_rc. rewrite E.
  destruct (nth_error row c) as [a|] eqn:Ec; [now exists a|].
  apply nth_error_None in Ec. lia.
Qed.

(** A square exists exactly when its column and the next one exist in its
    row and in the row below. *)
Lemma get_square_at_rc_some_iff m r c row row' :
  nth_error m r = Some row -> nth_error m (r + 1) = Some row' ->
  (exists sq, get_square_at_rc r c m = Some sq) <->
  (c + 1 < length row /\ c + 1 < length row')%nat.
Proof.
  intros E E'. split.
  - intros [sq H]. unfold get_square_at_rc in H.
    destruct (at_rc m r c); [|discriminate].
    destruct (at_rc m (r + 1) c); [|discriminate].
    destruct (at_rc m (r + 1) (c + 1)) eqn:H1; [|discriminate].
    destruct (at_rc m r (c + 1)) eqn:H2; [|discriminate].
    apply at_rc_some in H1, H2.
    destruct H1 as (x1 & Ex1 & ?). destruct H2 as (x2 & Ex2 & ?).
    rewrite E' in Ex1. rewrite E in Ex2.
    injection Ex1 as <-. injection Ex2 as <-. lia.
  - intros [H1 H2].
    destruct (at_rc_in_range m r c row E) as [a Ha]; [lia|].
    destruct (at_rc_in_range m (r + 1) c row' E') as [b Hb]; [lia|].
    destruct (at_rc_in_range m (r + 1) (c + 1) row' E') as [c' Hc']; [lia|].
    destruct (at_rc_in_range m r (c + 1) row E) as [d Hd]; [lia|].
    exists [a; b; c'; d]. unfold get_square_at_rc. now rewrite Ha, Hb, Hc', Hd.
Qed.

Lemma get_square_at_rc_length m r c sq :
  get_square_at_rc r c m = Some sq -> length sq = 4%nat.
Proof.
  unfold get_square_at_rc.
  destruct (at_rc m r c); [|discriminate].
  destruct (at_rc m (r + 1) c); [|discriminate].
  destruct (at_rc m (r + 1) (c + 1)); [|discriminate].
  destruct (at_rc m r (c + 1)); [|discriminate].
  now intros [= <-].
Qed.

(** The inner loop returns exactly when every square it asks for exists;
    it then appends one square of four entries per column. *)
Lemma squares_of_row_some_iff m r cs polys :
  (exists out, squares_of_row r cs m polys = Some out) <->
  Forall (fun c => exists sq, get_square_at_rc r c m = Some sq) cs.
Proof.
  revert polys. induction cs as [|c cs IH]; intros polys; simpl.
  - split; [constructor | now exists polys].
  - destruct (get_square_at_rc r c m) as [sq|] eqn:E.
    + rewrite IH. split.
      * intros H. constructor; [now exists sq | exact H].
      * intros H. now inversion H.
    + split.
      * intros [out H]. discriminate H.
      * intros H. inversion H as [|? ? [sq Hsq] _]. congruence.
Qed.

Lemma squares_of_row_result m r cs polys out :
  squares_of_row r cs m polys = Some out ->
  length out = (length polys + length cs)%nat /\
  (Forall (fun sq => length sq = 4%nat) polys ->
   Forall (fun sq => length sq = 4%nat) out).
Proof.
  revert polys. induction cs as [|c cs IH]; intros polys; simpl.
  - intros [= <-]. split; [lia | auto].
  - destruct (get_square_at_rc r c m) as [sq|] eqn:E; [|discriminate].
    intros H. destruct (IH _ H) as [Hl Hf]. split.
    + rewrite Hl, length_app. simpl. lia.
    + intros Hp. apply Hf. apply Forall_app. split; [exact Hp|].
      constructor; [|constructor]. now apply get_square_at_rc_length in E.
Qed.

Lemma squares_of_rows_some_iff m rs polys :
  Forall (fun r => (r < length m)%nat) rs ->
  (exists out, squares_of_rows rs m polys = Some out) <->
  Forall (fun r =>
            Forall (fun c => exists sq, get_square_at_rc r c m = Some sq)
                   (seq 0 (length (nth r m []) - 1))) rs.
Proof.
  revert polys. induction rs as [|r rs IH]; intros polys Hrs; simpl.
  - split; [constructor | now exists polys].
  - inversion Hrs as [|? ? Hr Hrs']; subst.
    rewrite Forall_cons_iff.
    destruct (nth_error m r) as [row|] eqn:E;
      [|apply nth_error_None in E; lia].
    rewrite (nth_error_nth _ _ [] E).
    rewrite <- (squares_of_row_some_iff m r _ polys).
    destruct (squares_of_row r (seq 0 (length row - 1)) m polys) as [mid|] eqn:Em.
    + rewrite (IH mid Hrs'). split.
      * intros H. split; [now exists mid | exact H].
      * intros [_ H]. exact H.
    + split.
      * intros [out H]. discriminate H.
      * intros [[out H] _]. discriminate H.
Qed.

Lemma squares_of_rows_result m rs polys out :
  squares_of_rows rs m polys = Some out ->
  length out
  = (length polys
     + list_sum (map (fun r => length (nth r m []) - 1) rs))%nat /\
  (Forall (fun sq => length sq = 4%nat) polys ->
   Forall (fun sq => length sq = 4%nat) out).
Proof.
  revert polys. induction rs as [|r rs IH]; intros polys; simpl.
  - intros [= <-]. split; [lia | auto].
  - destruct (nth_error m r) as [row|] eqn:E; [|discriminate].
    rewrite (nth_error_nth _ _ [] E).
    destruct (squares_of_row r (seq 0 (length row - 1)) m polys) as [mid|] eqn:Em;
      [|discriminate].
    intros H. destruct (IH _ H) as [Hl Hf].
    destruct (squares_of_row_result _ _ _ _ _ Em) as [Hl' Hf'].
    split; [rewrite Hl, Hl', length_seq; lia | auto].
Qed.

Lemma map_nth_seq_firstn {B : Type} (f : list A -> B) m (k : nat) :
  (k <= length m)%nat ->
  map (fun r => f (nth r m [])) (seq 0 k) = map f (firstn k m).
Proof.
  revert k. induction m as [|row m IH]; intros k Hk.
  - simpl in Hk. replace k with 0%nat by lia. reflexivity.
  - destruct k as [|k]; [reflexivity|].
    simpl. f_equal. rewrite <- seq_shift, map_map. simpl in Hk.
    apply IH. lia.
Qed.
End RaggedMatrices.

Section RaggedTheorems.
Context {A : Type}.
Implicit Types (m : list (list A)) (polys : list (list A)).

Lemma seq_rows_in_range m :
  Forall (fun r => (r < length m)%nat) (seq 0 (length m - 1)).
Proof. apply Forall_forall. intros r Hr. apply in_seq in Hr. lia. Qed.

(** X10: on any matrix, rectangular or not, [get_polygons] returns a list
    exactly when every row of two entries or more that has a row below it is
    no longer than that row; otherwise an index is out of range. *)
Theorem get_polygons_returns_iff m :
  (exists polys, get_polygons m = Some polys) <->
  (forall r row row',
      nth_error m r = Some row -> nth_error m (S r) = Some row' ->
      (2 <= length row)%nat -> (length row <= length row')%nat).
Proof.
  unfold get_polygons.
  rewrite (squares_of_rows_some_iff m _ [] (seq_rows_in_range m)).
  rewrite Forall_forall. split.
  - intros H r row row' E E' H2.
    assert (Hlen : (S r < length m)%nat) by (apply nth_error_Some; congruence).
    assert (Hin : In r (seq 0 (length m - 1))) by (apply in_seq; lia).
    specialize (H r Hin). rewrite (nth_error_nth _ _ [] E) in H.
    rewrite Forall_forall in H.
    assert (Hc : In (length row - 2)%nat (seq 0 (length row - 1)))
      by (apply in_seq; lia).
    specialize (H _ Hc).
    rewrite <- Nat.add_1_r in E'.
    apply (get_square_at_rc_some_iff m r _ row row' E E') in H. lia.
  - intros H r Hin. apply in_seq in Hin.
    destruct (nth_error m r) as [row|] eqn:E;
      [|apply nth_error_None in E; lia].
    destruct (nth_error m (r + 1)) as [row'|] eqn:E';
      [|apply nth_error_None in E'; lia].
    rewrite (nth_error_nth _ _ [] E).
    apply Forall_forall. intros c Hc. apply in_seq in Hc.
    apply (get_square_at_rc_some_iff m r c row row' E E').
    rewrite Nat.add_1_r in E'.
    specialize (H r row row' E E'). lia.
Qed.

(** X11: when [get_polygons] returns, every polygon has exactly four
    entries, and there is one polygon per entry but the last of every row
    but the last. *)
Theorem get_polygons_result m polys :
  get_polygons m = Some polys ->
  Forall (fun sq => length sq = 4%nat) polys /\
  length polys
  = list_sum (map (fun row => (length row - 1)%nat) (firstn (length m - 1) m)).
Proof.
  unfold get_polygons. intros H.
  destruct (squares_of_rows_result _ _ _ _ H) as [Hl Hf]. split.
  - apply Hf. constructor.
  - rewrite Hl. simpl.
    now rewrite (map_nth_seq_firstn (fun row => (length row - 1)%nat))
      by lia.
Qed.

Lemma squares_of_rows_narrow m :
  Forall (fun row => (length row <= 1)%nat) m ->
  forall rs polys,
    Forall (fun r => (r < length m)%nat) rs ->
    squares_of_rows rs m polys = Some polys.
Proof.
  intros Hm rs. induction rs as [|r rs IH]; intros polys Hrs; [reflexivity|].
  inversion Hrs as [|? ? Hr Hrs']; subst. simpl.
  destruct (nth_error m r) as [row|] eqn:E;
    [|apply nth_error_None in E; lia].
  rewrite Forall_forall in Hm.
  pose proof (Hm row (nth_error_In _ _ E)) as Hrow.
  replace (length row - 1)%nat with 0%nat by lia. simpl.
  now apply IH.
Qed.

(** X12: a matrix with at most one row, or whose rows all have at most one
    entry, has no polygon: [get_polygons] returns the empty list and no
    index is out of range. *)
Theorem get_polygons_of_a_line m :
  ((length m <= 1)%nat -> get_polygons m = Some []) /\
  (Forall (fun row => (length row <= 1)%nat) m -> get_polygons m = Some []).
Proof.
  split; intros H; unfold get_polygons.
  - replace (length m - 1)%nat with 0%nat by lia. reflexivity.
  - apply squares_of_rows_narrow; [exact H | apply seq_rows_in_range].
Qed.
End RaggedTheorems.

Lemma get_polygons_result_witness :
  Forall (fun sq => length sq = 4%nat) [[1; 3; 4; 2]]%nat /\
  length [[1; 3; 4; 2]]%nat
  = list_sum (map (fun row => (length row - 1)%nat)
                  (firstn (length [[1; 2]; [3; 4; 5]]%nat - 1)
                          [[1; 2]; [3; 4; 5]]%nat)).
Proof.
  apply (get_polygons_result [[1; 2]; [3; 4; 5]]%nat). reflexivity.
Defined.

Lemma get_polygons_of_a_line_witness :
  get_polygons [[1; 2; 3]]%nat = Some [] /\
  get_polygons [[1]; [2]; [3]]%nat = Some [].
Proof.
  split.
  - apply (proj1 (get_polygons_of_a_line [[1; 2; 3]]%nat)). simpl. lia.
  - apply (proj2 (get_polygons_of_a_line [[1]; [2]; [3]]%nat)).
    repeat constructor.
Defined.

(** * Further properties of the point encoder *)

(** X13: on any matrix, rectangular or not, the point encoder builds the
    MultiPoint document that lists every entry of every row once, row
    after row; the number of coordinate pairs is the sum of the lengths of
    the rows, and the matrix without rows gives no pair. *)
Theorem get_geo_json_points_any_matrix (m : list (list point)) :
  get_geo_json_points m
  = JObj [("type"%string, JStr "MultiPoint");
          ("coordinates"%string, JArr (map json_point (concat m)))] /\
  length (map json_point (concat m)) = list_sum (map (@length point) m) /\
  get_geo_json_points []
  = JObj [("type"%string, JStr "MultiPoint"); ("coordinates"%string, JArr [])].
Proof.
  split; [|split].
  - unfold get_geo_json_points, json_points. now rewrite flatten_points_concat.
  - now rewrite length_map, length_concat.
  - reflexivity.
Qed.

(** * Further properties of the grid builders *)

Section CommonFuel.
Variable w : nat -> R -> R -> option (list point).
Variable ok : point -> Prop.
Hypothesis w_mono :
  forall fuel fuel' lat lon row,
    w fuel lat lon = Some row -> (fuel <= fuel')%nat ->
    w fuel' lat lon = Some row.
Hypothesis w_returns :
  forall a, ok a -> exists fuel row, w fuel (p_lat a) (p_lon a) = Some row.

(** Enough fuel for every inner walk is enough for the loop. *)
Lemma walk_each_returns (anchors : list point) :
  Forall ok anchors ->
  exists bound,
    forall fuel acc,
      (bound <= fuel)%nat ->
      exists m, walk_each (w fuel) anchors acc = Some m.
Proof.
  induction 1 as [|[lon lat] anchors Ha _ IH].
  - exists 0%nat. intros fuel acc _. now exists acc.
  - destruct IH as [bound IH].
    destruct (w_returns _ Ha) as (f & row & Hrow).
    exists (Nat.max f bound). intros fuel acc Hle. simpl.
    unfold p_lat, p_lon in Hrow. simpl in Hrow.
    rewrite (w_mono f fuel lat lon row Hrow) by lia.
    apply IH. lia.
Qed.
End CommonFuel.

Lemma angular_distance_pos_inv (d : R) : 0 < angular_distance d -> 0 < d.
Proof.
  unfold angular_distance, RADIUS_OF_EARTH. intros H.
  replace d with (d / 6371 * 6371) by field. nra.
Qed.

Lemma south_walk_between_poles (fuel : nat) (lat lon lat_end d : R)
    (pts : list point) :
  0 < d -> -90 < lat < 90 ->
  -90 < lat_end - degrees (angular_distance d) ->
  get_points_south fuel lat lon lat_end d [] = Some pts ->
  Forall (fun p => -90 < p_lat p < 90) pts.
Proof.
  intros Hd Hlat Hend H. rewrite get_points_south_walk in H.
  pose proof (degrees_pos _ (angular_distance_pos _ Hd)) as Hdeg.
  refine (walk_inv _ _ (fun p => -90 < p_lat p < 90) _ fuel (lon, lat) pts
                   Hlat H).
  intros q Hq Hs. cbv beta in *. apply south_stop_false in Hs.
  rewrite (south_next_spec lat_end) by (try assumption; lra).
  unfold p_lat in *. cbn [snd]. lra.
Qed.

Lemma east_walk_between_poles (fuel : nat) (lat lon lon_end d : R)
    (pts : list point) :
  0 < angular_distance d < PI -> -90 < lat < 90 ->
  get_points_east fuel lat lon lon_end d [] = Some pts ->
  Forall (fun p => -90 < p_lat p < 90) pts.
Proof.
  intros Had Hlat H. rewrite get_points_east_walk in H.
  refine (walk_inv _ _ (fun p => -90 < p_lat p < 90) _ fuel (lon, lat) pts
                   Hlat H).
  intros q Hq _. now apply east_next_spec.
Qed.

(** X14: both grid builders return when the angular distance of the step
    is strictly between 0 and a half turn, the start latitude is strictly
    between the poles and the target latitude lowered by the angular
    distance is still above -90 degrees. *)
Theorem grid_builders_return (lat lon lat_end lon_end d : R) :
  0 < angular_distance d < PI -> -90 < lat < 90 ->
  -90 < lat_end - degrees (angular_distance d) ->
  (exists fuel m,
      get_points_south_then_east fuel lat lon lat_end lon_end d = Some m) /\
  (exists fuel m,
      get_points_east_then_south fuel lat lon lat_end lon_end d = Some m).
Proof.
  intros Had Hlat Hend.
  pose proof (angular_distance_pos_inv _ (proj1 Had)) as Hd.
  split.
  - destruct (get_points_south_terminates lat lon lat_end d Hd)
      as (f0 & anchors & H0); [lra | lra |].
    pose proof (south_walk_between_poles _ _ _ _ _ _ Hd Hlat Hend H0) as Hin.
    destruct (walk_each_returns
                (fun fuel la lo => get_points_east fuel la lo lon_end d [])
                (fun p => -90 < p_lat p < 90)) with (anchors := anchors)
      as [bound Hb].
    + intros fuel fuel' la lo row. apply get_points_east_mono.
    + intros a Ha. now apply get_points_east_terminates.
    + exact Hin.
    + destruct (Hb (Nat.max f0 bound) [] ltac:(lia)) as [m Hm].
      exists (Nat.max f0 bound), m. unfold get_points_south_then_east.
      rewrite (get_points_south_mono f0 _ _ _ _ _ _ H0) by lia. exact Hm.
  - destruct (get_points_east_terminates lat lon lon_end d Had Hlat)
      as (f0 & anchors & H0).
    pose proof (east_walk_between_poles _ _ _ _ _ _ Had Hlat H0) as Hin.
    destruct (walk_each_returns
                (fun fuel la lo => get_points_south fuel la lo lat_end d [])
                (fun p => -90 < p_lat p < 90)) with (anchors := anchors)
      as [bound Hb].
    + intros fuel fuel' la lo row. apply get_points_south_mono.
    + intros a Ha. apply get_points_south_terminates; lra.
    + exact Hin.
    + destruct (Hb (Nat.max f0 bound) [] ltac:(lia)) as [m Hm].
      exists (Nat.max f0 bound), m. unfold get_points_east_then_south.
      rewrite (get_points_east_mono f0 _ _ _ _ _ _ H0) by lia. exact Hm.
Qed.

Lemma grid_builders_return_witness :
  (exists fuel m, get_points_south_then_east fuel 45 10 0 20 6371 = Some m) /\
  (exists fuel m, get_points_east_then_south fuel 45 10 0 20 6371 = Some m).
Proof.
  apply (grid_builders_return 45 10 0 20 6371);
    rewrite ?angular_distance_6371.
  - pose proof one_lt_PI. lra.
  - lra.
  - pose proof degrees_1_bounds. lra.
Defined.

Lemma Forall2_nth_error_r {A B : Type} (P : A -> B -> Prop)
    (l : list A) (l' : list B) :
  Forall2 P l l' ->
  forall k b, nth_error l' k = Some b ->
              exists a, nth_error l k = Some a /\ P a b.
Proof.
  induction 1 as [|a b l l' Hab _ IH]; intros k y Hk.
  - destruct k; discriminate Hk.
  - destruct k as [|k]; simpl in *.
    + injection Hk as <-. now exists a.
    + now apply IH.
Qed.

(** X15: in the South-then-East grid of a walk South that never passes
    the pole, row k starts on the meridian of the start point, k angular
    distances below the start latitude. *)
Theorem south_then_east_first_column (fuel : nat)
    (lat lon lat_end lon_end d : R) (m : list (list point)) :
  0 < d -> lat <= 90 ->
  -90 <= lat_end - degrees (angular_distance d) ->
  get_points_south_then_east fuel lat lon lat_end lon_end d = Some m ->
  forall k row,
    nth_error m k = Some row ->
    exists rest,
      row = (lon, lat - INR k * degrees (angular_distance d)) :: rest.
Proof.
  intros Hd Hlat Hend H k row Hk.
  destruct (south_then_east_rows _ _ _ _ _ _ _ H) as (anchors & Ha & Hall).
  destruct (Forall2_nth_error_r _ _ _ Hall k row Hk) as (a & Eak & Hrow).
  rewrite (south_walk_nth _ _ _ _ _ _ Hd Hlat Hend Ha k a Eak) in Hrow.
  now apply get_points_east_head in Hrow.
Qed.

Lemma south_then_east_grid_from_60 :
  get_points_south_then_east 3 60 0 60 (degrees (atan 2)) (6371 * (PI / 3))
  = Some [[(0, 60); get_next_lat_lon 60 0 (6371 * (PI / 3)) EAST];
          [(0, 0); (0 + 60, 0); (0 + 60 + 60, 0)]].
Proof.
  unfold get_points_south_then_east.
  rewrite south_anchors_from_60. cbn [walk_each app].
  rewrite east_row_at_60, east_row_at_equator. reflexivity.
Qed.

Lemma south_then_east_first_column_witness :
  exists rest,
    [(0, 0); (0 + 60, 0); (0 + 60 + 60, 0)]
    = (0, 60 - INR 1 * degrees (angular_distance (6371 * (PI / 3)))) :: rest.
Proof.
  apply (south_then_east_first_column 3 60 0 60 (degrees (atan 2))
           (6371 * (PI / 3))
           [[(0, 60); get_next_lat_lon 60 0 (6371 * (PI / 3)) EAST];
            [(0, 0); (0 + 60, 0); (0 + 60 + 60, 0)]]) with (k := 1%nat).
  - pose proof PI_RGT_0. lra.
  - lra.
  - rewrite angular_distance_third_turn, degrees_third. lra.
  - exact south_then_east_grid_from_60.
  - reflexivity.
Defined.

(** X16: in the East-then-South grid, when the walk East starts strictly
    between the poles with an angular distance strictly between 0 and a
    half turn and no walk South passes the pole, every row lies on one
    meridian, its k-th point k angular distances below its first. *)
Theorem east_then_south_rows_on_meridians (fuel : nat)
    (lat lon lat_end lon_end d : R) (m : list (list point)) :
  0 < angular_distance d < PI -> -90 < lat < 90 ->
  -90 <= lat_end - degrees (angular_distance d) ->
  get_points_east_then_south fuel lat lon lat_end lon_end d = Some m ->
  Forall (fun row =>
            exists lon' lat',
              forall k p,
                nth_error row k = Some p ->
                p = (lon', lat' - INR k * degrees (angular_distance d))) m.
Proof.
  intros Had Hlat Hend H.
  pose proof (angular_distance_pos_inv _ (proj1 Had)) as Hd.
  destruct (east_then_south_rows _ _ _ _ _ _ _ H) as (anchors & Ha & Hall).
  pose proof (east_walk_between_poles _ _ _ _ _ _ Had Hlat Ha) as Hin.
  clear H Ha. induction Hall as [|a row anchors m Hrow _ IH].
  - constructor.
  - inversion Hin as [|? ? Hlat_a Hin']; subst.
    constructor; [|now apply IH].
    exists (p_lon a), (p_lat a).
    apply (south_walk_nth fuel (p_lat a) (p_lon a) lat_end d row);
      try assumption; lra.
Qed.

Lemma south_row_from_equator (lon : R) :
  get_points_south 3 0 lon 0 (6371 * (PI / 3)) [] = Some [(lon, 0); (lon, -60)].
Proof.
  apply get_points_south_mono with 2%nat; [|lia].
  replace (lon, -60)
    with (lon, 0 - degrees (angular_distance (6371 * (PI / 3))))
    by (rewrite angular_distance_third_turn, degrees_third; f_equal; ring).
  apply get_points_south_two;
    rewrite ?angular_distance_third_turn, ?degrees_third; lra.
Qed.

Lemma east_then_south_grid_from_equator :
  get_points_east_then_south 3 0 0 0 (degrees (atan 2)) (6371 * (PI / 3))
  = Some [[(0, 0); (0, -60)];
          [(0 + 60, 0); (0 + 60, -60)];
          [(0 + 60 + 60, 0); (0 + 60 + 60, -60)]].
Proof.
  unfold get_points_east_then_south.
  rewrite east_row_at_equator. cbn [walk_each app].
  rewrite !south_row_from_equator. reflexivity.
Qed.

Lemma east_then_south_rows_on_meridians_witness :
  Forall (fun row =>
            exists lon' lat',
              forall k p,
                nth_error row k = Some p ->
                p = (lon',
                     lat' - INR k * degrees (angular_distance (6371 * (PI / 3)))))
         [[(0, 0); (0, -60)];
          [(0 + 60, 0); (0 + 60, -60)];
          [(0 + 60 + 60, 0); (0 + 60 + 60, -60)]].
Proof.
  apply (east_then_south_rows_on_meridians 3 0 0 0 (degrees (atan 2))
           (6371 * (PI / 3))).
  - rewrite angular_distance_third_turn. pose proof PI_RGT_0. lra.
  - lra.
  - rewrite angular_distance_third_turn, degrees_third. lra.
  - exact east_then_south_grid_from_equator.
Defined.

(** * Properties of the command *)

(** X17: with [--multi-point] the command fails exactly when the grid
    builder does not return, and the document it writes to [out_file] is a
    MultiPoint whose first coordinate pair is the first corner, longitude
    first. *)
Theorem main_multi_point (fuel : nat) (a : args) :
  multi_point a = true ->
  (main fuel a = None <->
   get_points_south_then_east fuel (nw_lat a) (nw_lon a) (se_lat a) (se_lon a)
     (IZR (square_length a)) = None) /\
  (forall file doc,
      main fuel a = Some (file, doc) ->
      file = out_file a /\
      exists rest,
        doc = JObj [("type"%string, JStr "MultiPoint");
                    ("coordinates"%string,
                     JArr (JArr [JNum (nw_lon a); JNum (nw_lat a)] :: rest))]).
Proof.
  intros Hmp. unfold main. rewrite Hmp.
  destruct (get_points_south_then_east fuel (nw_lat a) (nw_lon a) (se_lat a)
              (se_lon a) (IZR (square_length a))) as [m|] eqn:E.
  - split; [split; discriminate|].
    intros file doc [= <- <-]. split; [reflexivity|].
    destruct (south_then_east_rows _ _ _ _ _ _ _ E) as (anchors & Ha & Hall).
    destruct (get_points_south_head _ _ _ _ _ _ Ha) as [tl ->].
    inversion Hall as [|? row0 ? rows Hrow0 _]; subst.
    unfold p_lat, p_lon in Hrow0. simpl in Hrow0.
    destruct (get_points_east_head _ _ _ _ _ _ Hrow0) as [rest0 ->].
    unfold get_geo_json_points, json_points.
    rewrite flatten_points_concat. simpl.
    now eexists.
  - split; [split; reflexivity|]. discriminate.
Qed.

Lemma main_multi_point_witness :
  (main 1 (Build_args 0 0 1 (-1) 100 "grid.json" true) = None <->
   get_points_south_then_east 1 0 0 1 (-1) (IZR 100) = None) /\
  (forall file doc,
      main 1 (Build_args 0 0 1 (-1) 100 "grid.json" true) = Some (file, doc) ->
      file = "grid.json"%string /\
      exists rest,
        doc = JObj [("type"%string, JStr "MultiPoint");
                    ("coordinates"%string,
                     JArr (JArr [JNum 0; JNum 0] :: rest))]).
Proof.
  apply (main_multi_point 1 (Build_args 0 0 1 (-1) 100 "grid.json" true)).
  reflexivity.
Defined.

(** X18: when the first corner is strictly South and strictly East of the
    second, the command writes the single corner in MultiPoint mode and a
    MultiPolygon without any polygon otherwise, whatever the step size. *)
Theorem main_degenerate_box (fuel : nat) (a : args) :
  nw_lat a < se_lat a -> nw_lon a > se_lon a ->
  main (S fuel) a
  = Some (out_file a,
          if multi_point a
          then JObj [("type"%string, JStr "MultiPoint");
                     ("coordinates"%string,
                      JArr [JArr [JNum (nw_lon a); JNum (nw_lat a)]])]
          else JObj [("type"%string, JStr "MultiPolygon");
                     ("coordinates"%string, JArr [JArr []])]).
Proof.
  intros Hlat Hlon. unfold main.
  rewrite south_then_east_past_target by assumption.
  destruct (multi_point a); reflexivity.
Qed.

Lemma main_degenerate_box_witness :
  main 1 (Build_args 0 0 1 (-1) 100 "grid.json" false)
  = Some ("grid.json"%string,
          JObj [("type"%string, JStr "MultiPolygon");
                ("coordinates"%string, JArr [JArr []])]).
Proof.
  apply (main_degenerate_box 0 (Build_args 0 0 1 (-1) 100 "grid.json" false));
    simpl; lra.
Defined.

Lemma zero_step_fixed (lat lon b : R) :
  -90 <= lat <= 90 -> get_next_lat_lon lat lon 0 b = (lon, lat).
Proof.
  intros Hlat. unfold get_next_lat_lon.
  rewrite get_next_lat_0 by now apply radians_lat_range.
  rewrite get_next_lon_0. now rewrite !degrees_radians.
Qed.

Lemma south_zero_step (fuel : nat) (lat lon lat_end : R) (acc : list point) :
  -90 <= lat <= 90 -> lat_end < lat ->
  get_points_south fuel lat lon lat_end 0 acc = None.
Proof.
  intros Hlat Hgt. revert acc.
  induction fuel as [|fuel IH]; intros acc; [reflexivity|].
  cbn [get_points_south].
  destruct (Rlt_dec lat lat_end); [lra|].
  rewrite (zero_step_fixed _ _ _ Hlat). apply IH.
Qed.

Lemma east_zero_step (fuel : nat) (lat lon lon_end : R) (acc : list point) :
  -90 <= lat <= 90 -> lon < lon_end ->
  get_points_east fuel lat lon lon_end 0 acc = None.
Proof.
  intros Hlat Hlt. revert acc.
  induction fuel as [|fuel IH]; intros acc; [reflexivity|].
  cbn [get_points_east].
  destruct (Rgt_dec lon lon_end); [lra|].
  rewrite (zero_step_fixed _ _ _ Hlat). apply IH.
Qed.

(** X19: with a step size of 0 a walker whose start point is strictly
    before its target (latitude strictly above the target latitude for the
    walk South, longitude strictly below the target longitude for the walk
    East) never returns, whatever the depth allowed; so the command never
    writes a document for [square_length = 0] when the first corner is
    strictly North of the second. *)
Theorem zero_step_never_returns :
  (forall fuel lat lon lat_end acc,
      -90 <= lat <= 90 -> lat_end < lat ->
      get_points_south fuel lat lon lat_end 0 acc = None) /\
  (forall fuel lat lon lon_end acc,
      -90 <= lat <= 90 -> lon < lon_end ->
      get_points_east fuel lat lon lon_end 0 acc = None) /\
  (forall fuel a,
      square_length a = 0%Z ->
      -90 <= nw_lat a <= 90 -> se_lat a < nw_lat a ->
      main fuel a = None).
Proof.
  split; [|split].
  - intros. now apply south_zero_step.
  - intros. now apply east_zero_step.
  - intros fuel a Hz Hlat Hgt. unfold main, get_points_south_then_east.
    rewrite Hz. now rewrite south_zero_step.
Qed.

Lemma zero_step_never_returns_witness :
  get_points_south 1000 10 20 0 0 [] = None /\
  get_points_east 1000 10 20 30 0 [] = None /\
  main 1000 (Build_args 1 0 0 1 0 "grid.json" false) = None.
Proof.
  split; [|split].
  - apply (proj1 zero_step_never_returns); lra.
  - apply (proj1 (proj2 zero_step_never_returns)); lra.
  - apply (proj2 (proj2 zero_step_never_returns)); simpl; try reflexivity; lra.
Defined.

(** * The walk East along the equator, and a grid the polygon encoder
      cannot take *)

(** X20: a walk East started on the equator, with an angular distance
    strictly between 0 and a quarter turn, stays on the equator and puts its
    k-th point k angular distances East of the start. *)
Theorem east_walk_on_the_equator (fuel : nat) (lon lon_end d : R)
    (pts : list point) :
  0 < angular_distance d < PI / 2 ->
  get_points_east fuel 0 lon lon_end d [] = Some pts ->
  forall k p,
    nth_error pts k = Some p ->
    p = (lon + INR k * degrees (angular_distance d), 0).
Proof.
  intros Had H. rewrite get_points_east_walk in H.
  induction k as [|k IH]; intros p Hp.
  - destruct (walk_head _ _ _ _ _ H) as [rest ->].
    injection Hp as <-. simpl. f_equal. ring.
  - destruct (nth_error pts k) as [a|] eqn:Ea.
    + destruct (walk_chain _ _ _ _ _ H k a p Ea Hp) as [_ ->].
      rewrite (IH a eq_refl). unfold east_next, p_lat, p_lon.
      cbn [fst snd]. rewrite (get_next_lat_lon_east_equator _ _ Had).
      rewrite S_INR. f_equal. ring.
    + apply nth_error_None in Ea.
      assert (nth_error pts (S k) = None) by (apply nth_error_None; lia).
      congruence.
Qed.

Lemma east_walk_on_the_equator_witness :
  (0 + 60 + 60, 0)
  = (0 + INR 2 * degrees (angular_distance (6371 * (PI / 3))), 0).
Proof.
  apply (east_walk_on_the_equator 3 0 (degrees (atan 2)) (6371 * (PI / 3))
           [(0, 0); (0 + 60, 0); (0 + 60 + 60, 0)]).
  - exact third_turn_range.
  - exact east_row_at_equator.
  - reflexivity.
Defined.

Lemma east_step_at_m60 :
  p_lon (get_next_lat_lon (-60) 0 (6371 * (PI / 3)) EAST) > degrees (atan 2).
Proof.
  unfold get_next_lat_lon, p_lon. simpl fst.
  rewrite get_next_lon_east, angular_distance_third_turn, radians_m60,
    cos_neg, cos_PI3.
  replace (radians 0) with 0 by (unfold radians; ring).
  rewrite atan2_right_pos, Rplus_0_l by lra.
  apply Rlt_gt, degrees_lt, atan_increasing.
  replace (sin (PI / 3) * (1 / 2) / (1 / 2 * (1 / 2 * (1 / 2))))
    with (4 * sin (PI / 3)) by field.
  pose proof half_lt_sin_third. lra.
Qed.

Lemma south_anchors_from_equator :
  get_points_south 3 0 0 0 (6371 * (PI / 3)) [] = Some [(0, 0); (0, -60)].
Proof.
  apply get_points_south_mono with 2%nat; [|lia].
  replace (0, -60) with (0, 0 - degrees (angular_distance (6371 * (PI / 3))))
    by (rewrite angular_distance_third_turn, degrees_third; f_equal; ring).
  apply get_points_south_two;
    rewrite ?angular_distance_third_turn, ?degrees_third; lra.
Qed.

(** X21: the grid builder can return a grid that the polygon encoder
    cannot take.  From the corner (0, 0) to the corner of latitude 0 and
    longitude [degrees (atan 2)], with a step of 6371 * PI / 3 km, the row
    on the equator has three points and the row below it two, so
    [get_polygons] reads past the end of the second row, while the point
    encoder lists the five points. *)
Theorem polygon_encoder_fails_on_a_built_grid :
  exists m,
    get_points_south_then_east 3 0 0 0 (degrees (atan 2)) (6371 * (PI / 3))
    = Some m /\
    map (@length point) m = [3; 2]%nat /\
    get_geo_json_polys m = None /\
    exists coords,
      get_geo_json_points m
      = JObj [("type"%string, JStr "MultiPoint");
              ("coordinates"%string, JArr coords)] /\
      length coords = 5%nat.
Proof.
  exists [[(0, 0); (0 + 60, 0); (0 + 60 + 60, 0)];
          [(0, -60); get_next_lat_lon (-60) 0 (6371 * (PI / 3)) EAST]].
  split; [|split; [reflexivity | split; [reflexivity|]]].
  - unfold get_points_south_then_east.
    rewrite south_anchors_from_equator. cbn [walk_each app].
    rewrite east_row_at_equator.
    rewrite (get_points_east_mono 2 3 (-60) 0 _ _
               [(0, -60); get_next_lat_lon (-60) 0 (6371 * (PI / 3)) EAST]);
      [reflexivity | | lia].
    pose proof degrees_atan_2_bounds.
    apply get_points_east_two; [lra | exact east_step_at_m60].
  - eexists. split; [reflexivity | reflexivity].
Qed.
